(** * The aperture load balancer of scales (scales/loadbalancer/aperture.py)

    A shallow embedding of [MonoClock], [Ema] and [ApertureBalancerSink],
    followed by the properties of the load-driven control loop, the
    membership hooks and the jitter cycle.

    Conventions of the embedding.
    - Python floats are idealised as real numbers ([R]); [math.exp] is [exp].
      The integer load counter is a [Z], converted with [IZR] where the code
      mixes it with floats.  What the idealisation leaves out is modelled
      beside it for [Ema.Update], where it matters: the range of [math.exp]
      ([exp_in_range]), the binary64 operations themselves ([EmaFloat]) and
      their rounding errors ([EmaRounded]).
    - The sets of endpoints are [gset]s.  Endpoints are opaque objects, so
      Python's truth test on an endpoint is true: [any(endpoints)] reads
      "the list is not empty", and [if endpoint:] reads "is not None".
    - The handle that the base class returns from [_AddSink] is an object
      as well, so [if added_node:] holds whenever the aperture expanded.
    - What the code asks of its environment is an explicit argument:
      the reading of [time.time()], the index drawn by [random.choice], the
      delay drawn by [random.randint], the outcome of [ar.wait()].
    - The gauges, the debug log and the timer queue are written to; what is
      written is appended to the [_out] field of the sink, oldest first.
    - An exception is modelled where the code provides for one: in the
      jitter cycle, whose [try] body may be left by [ar.wait()] raising. *)

From Stdlib Require Import Reals Lra ZArith List Sorted Floats.
From stdpp Require Import gmap sets list strings.

(** ** MonoClock *)

Module MonoClock.

Local Open Scope R_scope.

Record t := { _last : R }.

(** [__init__]: [self._last = time.time()]. *)
Definition init (now : R) : t := {| _last := now |}.

(** [Sample], where [now] is what [time.time()] reads during the call. *)
Definition Sample (c : t) (now : R) : t * R :=
  let c' := if Rlt_dec 0 (now - _last c) then {| _last := now |} else c in
  (c', _last c').

(** Successive calls of [Sample], one per wall-clock reading. *)
Fixpoint samples (c : t) (readings : list R) : list R :=
  match readings with
  | [] => []
  | now :: rest => let '(c', s) := Sample c now in s :: samples c' rest
  end.

End MonoClock.

(** ** Ema *)

Module Ema.

Local Open Scope R_scope.

Record t := { _window : R; _time : R; _ema : R }.

(** [__init__(window)]. *)
Definition init (window : R) : t :=
  {| _window := window; _time := -1; _ema := 0 |}.

(** [Update(ts, sample)]: the updated object and the returned value. *)
Definition Update (e : t) (ts sample : R) : t * R :=
  if Req_dec_T (_time e) (-1) then
    let e' := {| _window := _window e; _time := ts; _ema := sample |} in
    (e', _ema e')
  else
    let delta := ts - _time e in
    let window :=
      if Req_dec_T (_window e) 0 then 0 else exp (- delta / _window e) in
    let e' := {| _window := _window e; _time := ts;
                 _ema := sample * (1 - window) + _ema e * window |} in
    (e', _ema e').

(** The values returned by successive calls [Update(ts, x)]. *)
Fixpoint updates (e : t) (calls : list (R * R)) : list R :=
  match calls with
  | [] => []
  | (ts, x) :: rest => let '(e', y) := Update e ts x in y :: updates e' rest
  end.

End Ema.

(** ** The recurrence of the EMA as the specification words it

  The state is [None] before the first call and [Some (last_ts, value)]
  afterwards.  [weight] is the rule that gives [w] from [W] and [Δ]. *)

Module EmaSpec.

Local Open Scope R_scope.

Definition state := option (R * R).

Definition Update (weight : R -> R -> R) (W : R) (s : state) (ts x : R)
  : state * R :=
  match s with
  | None => (Some (ts, x), x)
  | Some (last_ts, value) =>
      let delta := ts - last_ts in
      let w := weight W delta in
      let value' := x * (1 - w) + value * w in
      (Some (ts, value'), value')
  end.

(** "[w = exp(−Δ / W)] if [W > 0] else [0]". *)
Definition weight_positive (W delta : R) : R :=
  if Rlt_dec 0 W then exp (- delta / W) else 0.

(** "[w = exp(−Δ / W)] if [W ≠ 0], and [0] if [W = 0]". *)
Definition weight_nonzero (W delta : R) : R :=
  if Req_dec_T W 0 then 0 else exp (- delta / W).

(** The state of the recurrence that an [Ema] object stands for; the object
    marks "no call yet" by the time [-1]. *)
Definition abs (e : Ema.t) : state :=
  if Req_dec_T (Ema._time e) (-1) then None
  else Some (Ema._time e, Ema._ema e).

Fixpoint updates (weight : R -> R -> R) (W : R) (s : state)
    (calls : list (R * R)) : list R :=
  match calls with
  | [] => []
  | (ts, x) :: rest =>
      let '(s', y) := Update weight W s ts x in y :: updates weight W s' rest
  end.

End EmaSpec.

(** ** The range of [math.exp]

    [math.exp] raises [OverflowError] when its result exceeds the largest
    float, which happens for arguments above about 709.78 (on arguments far
    below 0 it returns 0.0 and raises nothing).  In [Ema.Update] the
    exception leaves the object with [_time] overwritten and [_ema] as it
    was.  [Ema.Update] above gives a value for every argument; what is
    proved of a call that reaches [math.exp] is proved for an argument
    within range. *)

Definition exp_in_range (x : R) : Prop := (x <= 709)%R.

(** The argument that the call [Update(ts, _)] passes to [math.exp], when
    it calls it: not on a first call, and not with the window 0. *)
Definition exp_argument (e : Ema.t) (ts : R) : option R :=
  if Req_dec_T (Ema._time e) (-1) then None
  else if Req_dec_T (Ema._window e) 0 then None
  else Some (- (ts - Ema._time e) / Ema._window e)%R.

Definition Update_in_range (e : Ema.t) (ts : R) : Prop :=
  match exp_argument e ts with
  | Some x => exp_in_range x
  | None => True
  end.

(** Every call of the sequence, made in turn on [e], is within range. *)
Fixpoint updates_in_range (e : Ema.t) (calls : list (R * R)) : Prop :=
  match calls with
  | [] => True
  | (ts, x) :: rest =>
      Update_in_range e ts /\ updates_in_range (fst (Ema.Update e ts x)) rest
  end.

(** ** Ema on binary64

    The same class with the float operations that Python performs, each
    rounded to binary64.  [math_exp] is the [math.exp] of the C library. *)

Module EmaFloat.

Local Open Scope float_scope.

Record t := { _window : float; _time : float; _ema : float }.

Definition init (window : float) : t :=
  {| _window := window; _time := -1; _ema := 0 |}.

Definition Update (math_exp : float -> float) (e : t) (ts sample : float)
  : t * float :=
  if _time e =? -1 then
    let e' := {| _window := _window e; _time := ts; _ema := sample |} in
    (e', _ema e')
  else
    let delta := ts - _time e in
    let window :=
      if _window e =? 0 then 0 else math_exp (- delta / _window e) in
    let e' := {| _window := _window e; _time := ts;
                 _ema := sample * (1 - window) + _ema e * window |} in
    (e', _ema e').

(** [math.exp] at the one argument that the scenario below passes to it:
    [math.exp(-6.75 / 5)], that is [math.exp(-1.35)], is
    [0.2592402606458915] (the float nearest to [e^-1.35]). *)
Definition math_exp_scenario (x : float) : float :=
  if x =? -0x1.599999999999ap+0 then 0x1.097647651f5adp-2 else nan.

End EmaFloat.

(** ** Ema with rounding errors

    The same class over the reals with each float operation followed by a
    rounding [rnd], and with the library's [math_exp].  The timestamps and
    the sample are taken as binary64 holds them (the sample of the sink is
    an integer counter, which [float] converts without error below 2^53). *)

Module EmaRounded.

Local Open Scope R_scope.

Definition Update (rnd math_exp : R -> R) (e : Ema.t) (ts sample : R)
  : Ema.t * R :=
  if Req_dec_T (Ema._time e) (-1) then
    let e' := {| Ema._window := Ema._window e; Ema._time := ts;
                 Ema._ema := sample |} in
    (e', Ema._ema e')
  else
    let delta := rnd (ts - Ema._time e) in
    let window :=
      if Req_dec_T (Ema._window e) 0 then 0
      else math_exp (rnd (- delta / Ema._window e)) in
    let e' := {| Ema._window := Ema._window e; Ema._time := ts;
                 Ema._ema := rnd (rnd (sample * rnd (1 - window))
                                  + rnd (Ema._ema e * window)) |} in
    (e', Ema._ema e').

(** What is used of rounding to binary64: it is monotone, it keeps 0, and
    on a real of magnitude at most [big] (the largest float) it errs by at
    most the relative error [u] (2^-53) plus the absolute error [eta]
    (2^-1075, for results in the subnormal range). *)
Definition binary64_rounding (rnd : R -> R) (u eta big : R) : Prop :=
  0 <= u <= / 8
  /\ 0 <= eta <= / 8
  /\ (forall x y : R, x <= y -> rnd x <= rnd y)
  /\ rnd 0 = 0
  /\ (forall x : R, Rabs x <= big -> Rabs (rnd x - x) <= u * Rabs x + eta).

(** What is used of [math.exp]: on an argument that is not above 0 it
    returns a weight between 0 and 1. *)
Definition exp_in_unit (math_exp : R -> R) : Prop :=
  forall x : R, x <= 0 -> 0 <= math_exp x <= 1.

(** The error allowed to one update on values of magnitude at most [M]. *)
Definition rounding_error (u eta M : R) : R := 5 * u * M + (2 * M + 4) * eta.

End EmaRounded.

(** ** The options record and the defaults of [ApertureBalancerSink.Builder] *)

Record SinkProperties := {
  smoothing_window : R;
  min_size : Z;
  min_load : R;
  max_load : R;
  jitter_min_sec : Z;
  jitter_max_sec : Z
}.

Definition Builder_defaults : SinkProperties :=
  {| smoothing_window := 5; min_size := 1; min_load := 0.5; max_load := 2;
     jitter_min_sec := 120; jitter_max_sec := 240 |}.

(** ** What the sink reads of a heap node, and the handles it passes on *)

Record Node {Endpoint : Type} := {
  endpoint : Endpoint;
  load : Z;
  index : nat;
  is_open : bool          (* [node.channel.is_open] *)
}.
Arguments Node : clear implicits.

(** [Complete] is [AsyncResult.Complete()]; [AddSinkResult e] is the handle
    that the base class's [_AddSink] returned for the endpoint [e]. *)
Inductive AsyncResult {Endpoint : Type} :=
| Complete
| AddSinkResult (e : Endpoint).
Arguments AsyncResult : clear implicits.

(** What the sink writes to: the three gauges of [ApertureVarz], the debug
    log, and the timer queue ([LOW_RESOLUTION_TIMER_QUEUE.Schedule], recorded
    with the delay added to [now]). *)
Inductive Effect {Endpoint : Type} :=
| varz_active (n : nat)
| varz_idle (n : nat)
| varz_load_average (x : R)
| log_expanding (e : Endpoint)
| log_contracting (e : Endpoint)
| timer_schedule (delay : Z).
Arguments Effect : clear implicits.

(** The outcome of [ar.wait()] in a jitter cycle: the handle completed
    without an exception, it completed with [ar.exception] set, or the call
    of [wait] itself raised. *)
Inductive WaitOutcome := WaitDone | WaitFailed | WaitRaised.

(** ** The base class, [HeapBalancerSink]

    heap.py is not among the sources; the sink is written against this
    interface: the state the base class keeps, the nodes of [self._heap[1:]]
    in array order, and the two methods reached through [super]. *)
Class HeapBalancerSink (Endpoint : Type) := {
  heap : Type;
  heap_init : heap;
  heap_tail : heap -> list (Node Endpoint);
  super_AddSink : Endpoint -> heap -> heap;
  super_RemoveSink : Endpoint -> heap -> heap
}.

(** ** ApertureBalancerSink *)

Section ApertureBalancerSink.

Context {Endpoint : Type} `{Countable Endpoint} `{HeapBalancerSink Endpoint}.

Record ApertureBalancerSink := {
  _idle_endpoints : gset Endpoint;
  _active_endpoints : gset Endpoint;
  _total : Z;
  _ema : Ema.t;
  _time : MonoClock.t;
  _min_size : Z;
  _min_load : R;
  _max_load : R;
  _jitter_min : Z;
  _jitter_max : Z;
  _pending_endpoints : gset Endpoint;
  _heap : heap;
  _out : list (Effect Endpoint)
}.

(** Assignments to one attribute of [self]. *)
Definition set_idle (s : gset Endpoint) (self : ApertureBalancerSink) :=
  {| _idle_endpoints := s; _active_endpoints := _active_endpoints self;
     _total := _total self; _ema := _ema self; _time := _time self;
     _min_size := _min_size self; _min_load := _min_load self;
     _max_load := _max_load self; _jitter_min := _jitter_min self;
     _jitter_max := _jitter_max self;
     _pending_endpoints := _pending_endpoints self; _heap := _heap self;
     _out := _out self |}.

Definition set_active (s : gset Endpoint) (self : ApertureBalancerSink) :=
  {| _idle_endpoints := _idle_endpoints self; _active_endpoints := s;
     _total := _total self; _ema := _ema self; _time := _time self;
     _min_size := _min_size self; _min_load := _min_load self;
     _max_load := _max_load self; _jitter_min := _jitter_min self;
     _jitter_max := _jitter_max self;
     _pending_endpoints := _pending_endpoints self; _heap := _heap self;
     _out := _out self |}.

Definition set_pending (s : gset Endpoint) (self : ApertureBalancerSink) :=
  {| _idle_endpoints := _idle_endpoints self;
     _active_endpoints := _active_endpoints self;
     _total := _total self; _ema := _ema self; _time := _time self;
     _min_size := _min_size self; _min_load := _min_load self;
     _max_load := _max_load self; _jitter_min := _jitter_min self;
     _jitter_max := _jitter_max self;
     _pending_endpoints := s; _heap := _heap self; _out := _out self |}.

Definition set_heap (h : heap) (self : ApertureBalancerSink) :=
  {| _idle_endpoints := _idle_endpoints self;
     _active_endpoints := _active_endpoints self;
     _total := _total self; _ema := _ema self; _time := _time self;
     _min_size := _min_size self; _min_load := _min_load self;
     _max_load := _max_load self; _jitter_min := _jitter_min self;
     _jitter_max := _jitter_max self;
     _pending_endpoints := _pending_endpoints self; _heap := h;
     _out := _out self |}.

(** The three attributes that [_AdjustAperture] assigns before it looks at
    the aperture: [_total], and the objects behind [_ema] and [_time]. *)
Definition set_load (total : Z) (ema : Ema.t) (clock : MonoClock.t)
    (self : ApertureBalancerSink) :=
  {| _idle_endpoints := _idle_endpoints self;
     _active_endpoints := _active_endpoints self;
     _total := total; _ema := ema; _time := clock;
     _min_size := _min_size self; _min_load := _min_load self;
     _max_load := _max_load self; _jitter_min := _jitter_min self;
     _jitter_max := _jitter_max self;
     _pending_endpoints := _pending_endpoints self; _heap := _heap self;
     _out := _out self |}.

(** One write to a gauge, the log or the timer queue. *)
Definition emit (x : Effect Endpoint) (self : ApertureBalancerSink) :=
  {| _idle_endpoints := _idle_endpoints self;
     _active_endpoints := _active_endpoints self;
     _total := _total self; _ema := _ema self; _time := _time self;
     _min_size := _min_size self; _min_load := _min_load self;
     _max_load := _max_load self; _jitter_min := _jitter_min self;
     _jitter_max := _jitter_max self;
     _pending_endpoints := _pending_endpoints self; _heap := _heap self;
     _out := _out self ++ [x] |}.

(** [any(endpoints)]: every endpoint being true, whether there is one. *)
Definition any (endpoints : list Endpoint) : bool :=
  match endpoints with [] => false | _ :: _ => true end.

(** [x >= y] and [x <= y] on floats. *)
Definition float_ge (x y : R) : bool := if Rge_dec x y then true else false.
Definition float_le (x y : R) : bool := if Rle_dec x y then true else false.

(** [random.choice] on a list with head [d]: [pick] is the index drawn. *)
Definition random_choice (pick : nat) (d : Endpoint) (rest : list Endpoint)
  : Endpoint :=
  nth (pick mod S (length rest)) (d :: rest) d.

Definition _UpdateSizeVarz (self : ApertureBalancerSink) :=
  emit (varz_idle (size (_idle_endpoints self)))
    (emit (varz_active (size (_active_endpoints self))) self).

(** [_ScheduleNextJitter], [delay] being what [random.randint] drew
    ([random.randint] draws when [_jitter_min ≤ _jitter_max], and raises
    otherwise; the properties of the schedule are stated for sinks with
    [_jitter_min ≤ _jitter_max]). *)
Definition _ScheduleNextJitter (delay : Z) (self : ApertureBalancerSink) :=
  emit (timer_schedule delay) self.

(** [__init__]: [now] is the reading of the clock at construction. *)
Definition __init__ (sink_properties : SinkProperties) (now : R) (delay : Z)
  : ApertureBalancerSink :=
  let self :=
    {| _idle_endpoints := ∅; _active_endpoints := ∅; _total := 0;
       _ema := Ema.init 5; _time := MonoClock.init now;
       _min_size := min_size sink_properties;
       _min_load := min_load sink_properties;
       _max_load := max_load sink_properties;
       _jitter_min := jitter_min_sec sink_properties;
       _jitter_max := jitter_max_sec sink_properties;
       _pending_endpoints := ∅; _heap := heap_init; _out := [] |} in
  if decide (0 < _jitter_min self)%Z then _ScheduleNextJitter delay self
  else self.

Definition _AddSink (e : Endpoint) (self : ApertureBalancerSink) :=
  let num_healthy := length (filter (λ c, is_open c = true) (heap_tail (_heap self))) in
  let self :=
    if decide (Z.of_nat num_healthy < _min_size self)%Z then
      let self := set_active ({[e]} ∪ _active_endpoints self) self in
      set_heap (super_AddSink e (_heap self)) self
    else set_idle ({[e]} ∪ _idle_endpoints self) self in
  _UpdateSizeVarz self.

Definition _TryExpandAperture (pick : nat) (self : ApertureBalancerSink)
  : ApertureBalancerSink * (AsyncResult Endpoint * option Endpoint) :=
  let endpoints := elements (_idle_endpoints self) in
  match endpoints with              (* [if any(endpoints):] *)
  | d :: rest =>
      let new_endpoint := random_choice pick d rest in
      let self := set_idle (_idle_endpoints self ∖ {[new_endpoint]}) self in
      let self := set_active ({[new_endpoint]} ∪ _active_endpoints self) self in
      let self := emit (log_expanding new_endpoint) self in
      let self := set_heap (super_AddSink new_endpoint (_heap self)) self in
      (_UpdateSizeVarz self, (AddSinkResult new_endpoint, Some new_endpoint))
  | [] => (_UpdateSizeVarz self, (Complete, None))
  end.

(** The scan of [_ContractAperture]: the first node of [self._heap[1:]]
    whose endpoint is not pending. *)
Definition least_loaded_endpoint (self : ApertureBalancerSink)
  : option Endpoint :=
  endpoint <$>
    List.find (λ n, bool_decide (endpoint n ∉ _pending_endpoints self))
      (heap_tail (_heap self)).

Definition _ContractAperture (self : ApertureBalancerSink) :=
  if decide (_min_size self < Z.of_nat (size (_active_endpoints self)))%Z then
    match least_loaded_endpoint self with
    | Some e =>
        let self := set_active (_active_endpoints self ∖ {[e]}) self in
        let self := set_idle ({[e]} ∪ _idle_endpoints self) self in
        let self := set_heap (super_RemoveSink e (_heap self)) self in
        let self := emit (log_contracting e) self in
        _UpdateSizeVarz self
    | None => self
    end
  else self.

Definition _RemoveSink (e : Endpoint) (pick : nat)
    (self : ApertureBalancerSink) :=
  let self := set_heap (super_RemoveSink e (_heap self)) self in
  let self :=
    if decide (e ∈ _active_endpoints self) then
      let self := set_active (_active_endpoints self ∖ {[e]}) self in
      fst (_TryExpandAperture pick self)
    else self in
  let self :=
    if decide (e ∈ _idle_endpoints self) then
      set_idle (_idle_endpoints self ∖ {[e]}) self
    else self in
  _UpdateSizeVarz self.

Definition _OnNodeDown (node : Node Endpoint) (pick : nat)
    (self : ApertureBalancerSink)
  : ApertureBalancerSink * AsyncResult Endpoint :=
  if decide (endpoint node ∈ _active_endpoints self) then
    let '(self, (ar, _)) := _TryExpandAperture pick self in (self, ar)
  else (self, Complete).

(** The per-node load that [_AdjustAperture] compares with the band, from
    the average [avg] returned by the EMA. *)
Definition aperture_load (avg : R) (self : ApertureBalancerSink) : R :=
  let aperture_size := size (_active_endpoints self) in
  if decide (aperture_size = 0%nat) then _max_load self
  else (avg / INR aperture_size)%R.

(** [_AdjustAperture(amount)]: [now] is the reading of [time.time()] inside
    [self._time.Sample()], [pick] the index [random.choice] draws if the
    aperture expands. *)
Definition _AdjustAperture (amount : Z) (now : R) (pick : nat)
    (self : ApertureBalancerSink) :=
  let total := (_total self + amount)%Z in
  let '(clock, ts) := MonoClock.Sample (_time self) now in
  let '(ema, avg) := Ema.Update (_ema self) ts (IZR total) in
  let self := set_load total ema clock self in
  let aperture_size := size (_active_endpoints self) in
  let load := aperture_load avg self in
  let self :=
    if decide (aperture_size = 0%nat) then self
    else emit (varz_load_average load) self in
  if float_ge load (_max_load self) && any (elements (_idle_endpoints self))
  then fst (_TryExpandAperture pick self)
  else if float_le load (_min_load self)
          && bool_decide (_min_size self < Z.of_nat aperture_size)%Z
  then _ContractAperture self
  else self.

Definition _OnGet := _AdjustAperture 1.
Definition _OnPut := _AdjustAperture (-1).

(** [_Jitter] up to its call of [ar.wait()]: the state when the cycle starts
    to wait, the handle, and the endpoint it holds ([None]: the aperture did
    not expand, and the cycle does not wait). *)
Definition Jitter_expand (pick : nat) (self : ApertureBalancerSink)
  : ApertureBalancerSink * (AsyncResult Endpoint * option Endpoint) :=
  let '(self, (ar, e)) := _TryExpandAperture pick self in
  match e with
  | Some e' =>
      (set_pending ({[e']} ∪ _pending_endpoints self) self, (ar, e))
  | None => (self, (ar, e))
  end.

(** [_Jitter] from the return of [ar.wait()] to the end of the [try] body:
    the state, and whether an exception leaves the body. *)
Definition Jitter_resume (e : Endpoint) (outcome : WaitOutcome)
    (self : ApertureBalancerSink) : ApertureBalancerSink * bool :=
  match outcome with
  | WaitRaised => (self, true)
  | WaitFailed =>
      (set_pending (_pending_endpoints self ∖ {[e]}) self, false)
  | WaitDone =>
      let self := _ContractAperture self in
      (set_pending (_pending_endpoints self ∖ {[e]}) self, false)
  end.

(** The [finally] clause of [_Jitter]. *)
Definition Jitter_finally (delay : Z) (r : ApertureBalancerSink * bool)
  : ApertureBalancerSink * bool :=
  (_ScheduleNextJitter delay (fst r), snd r).

(** [_Jitter] when nothing else runs while it waits: the state it leaves,
    and whether it ends by an exception. *)
Definition _Jitter (pick : nat) (outcome : WaitOutcome) (delay : Z)
    (self : ApertureBalancerSink) : ApertureBalancerSink * bool :=
  let '(self, (_, e)) := Jitter_expand pick self in
  Jitter_finally delay
    match e with
    | Some e' => Jitter_resume e' outcome self
    | None => (self, false)
    end.

(** ** The sink among its callers

    The calls that reach the sink, one at a time.  A jitter cycle that waits
    on its handle is suspended with the endpoint it holds ([waiting]); the
    other calls run meanwhile, and the cycle goes on when [ar.wait()] comes
    back.  [EvBase h] stands for the base class working on its own heap
    (loads, order, channel state), whatever it does there. *)

Record System := {
  sink : ApertureBalancerSink;
  waiting : option Endpoint
}.

Inductive Event :=
| EvAddSink (e : Endpoint)
| EvRemoveSink (e : Endpoint) (pick : nat)
| EvNodeDown (node : Node Endpoint) (pick : nat)
| EvGet (now : R) (pick : nat)
| EvPut (now : R) (pick : nat)
| EvBase (h : heap)
| EvJitterFire (pick : nat) (delay : Z)
| EvJitterWake (outcome : WaitOutcome) (delay : Z).

Definition with_sink (self : ApertureBalancerSink) (s : System) : System :=
  {| sink := self; waiting := waiting s |}.

(** One call; [None] when it cannot happen (the timer fires only between
    cycles, a wait ends only where a cycle waits). *)
Definition step (ev : Event) (s : System) : option System :=
  match ev with
  | EvAddSink e => Some (with_sink (_AddSink e (sink s)) s)
  | EvRemoveSink e pick => Some (with_sink (_RemoveSink e pick (sink s)) s)
  | EvNodeDown node pick =>
      Some (with_sink (fst (_OnNodeDown node pick (sink s))) s)
  | EvGet now pick => Some (with_sink (_OnGet now pick (sink s)) s)
  | EvPut now pick => Some (with_sink (_OnPut now pick (sink s)) s)
  | EvBase h => Some (with_sink (set_heap h (sink s)) s)
  | EvJitterFire pick delay =>
      match waiting s with
      | Some _ => None
      | None =>
          let '(self, (_, e)) := Jitter_expand pick (sink s) in
          match e with
          | Some e' => Some {| sink := self; waiting := Some e' |}
          | None =>
              Some {| sink := fst (Jitter_finally delay (self, false));
                      waiting := None |}
          end
      end
  | EvJitterWake outcome delay =>
      match waiting s with
      | Some e =>
          Some {| sink := fst (Jitter_finally delay
                                 (Jitter_resume e outcome (sink s)));
                  waiting := None |}
      | None => None
      end
  end.

Fixpoint run (evs : list Event) (s : System) : option System :=
  match evs with
  | [] => Some s
  | ev :: rest =>
      match step ev s with
      | Some s' => run rest s'
      | None => None
      end
  end.

(** The number of [Get]s less the number of [Put]s among the calls. *)
Fixpoint net_load (evs : list Event) : Z :=
  match evs with
  | [] => 0
  | EvGet _ _ :: rest => 1 + net_load rest
  | EvPut _ _ :: rest => -1 + net_load rest
  | _ :: rest => net_load rest
  end.

(** The number of resizes among what was written: the sink logs each
    expansion and each contraction of the aperture, and nothing else. *)
Definition is_resize (x : Effect Endpoint) : bool :=
  match x with
  | log_expanding _ | log_contracting _ => true
  | _ => false
  end.

Definition resizes (out : list (Effect Endpoint)) : nat :=
  length (List.filter is_resize out).

Definition is_load_average (x : Effect Endpoint) : bool :=
  match x with varz_load_average _ => true | _ => false end.

(** What a method leaves alone: the load counter, the EMA, the clock, the
    configuration and the pending set. *)
Definition same_load (self self' : ApertureBalancerSink) : Prop :=
  _total self' = _total self /\ _ema self' = _ema self
  /\ _time self' = _time self /\ _min_size self' = _min_size self
  /\ _min_load self' = _min_load self /\ _max_load self' = _max_load self
  /\ _pending_endpoints self' = _pending_endpoints self.

(** [pending_within X self]: every pending endpoint is active or in [X]. *)
Definition pending_within (X : gset Endpoint) (self : ApertureBalancerSink)
  : Prop :=
  _pending_endpoints self ⊆ _active_endpoints self ∪ X.

(** The endpoints that the calls [evs] remove from the server set. *)
Fixpoint removed (evs : list Event) : gset Endpoint :=
  match evs with
  | [] => ∅
  | EvRemoveSink e _ :: rest => {[e]} ∪ removed rest
  | _ :: rest => removed rest
  end.

End ApertureBalancerSink.

Arguments ApertureBalancerSink Endpoint {_ _ _}.
Arguments System Endpoint {_ _ _}.
Arguments Event Endpoint {_}.

(** ** A heap balancer to run the sink on *)

Module SpecHeap.

Section SpecHeap.

Context {Endpoint : Type} `{EqDecision Endpoint}.

(** Modelled from the spec: the state of [HeapBalancerSink] (heap.py is not
    among the sources): "a min-heap of active HeapNodes ordered by
    [(load, index)]", kept as the array [self._heap[1:]], and the counter
    behind "new nodes receive [index = ++counter]". *)
Record t := { nodes : list (Node Endpoint); counter : nat }.

(** Modelled from the spec: the order of [HeapBalancerSink]'s heap, "among
    nodes of equal [load], the one with the lower [index] wins". *)
Definition node_lt (a b : Node Endpoint) : bool :=
  bool_decide (load a < load b)%Z
  || (bool_decide (load a = load b) && bool_decide (index a < index b)).

Definition swap (i j : nat) (l : list (Node Endpoint)) :=
  match l !! i, l !! j with
  | Some a, Some b => <[i:=b]> (<[j:=a]> l)
  | _, _ => l
  end.

(** Modelled from the spec: the sifts of [HeapBalancerSink]'s binary heap,
    the children of position [i] being at [2i+1] and [2i+2]. *)
Fixpoint sift_up (fuel i : nat) (l : list (Node Endpoint)) :=
  match fuel, i with
  | S fuel, S _ =>
      let parent := (i - 1) / 2 in
      match l !! i, l !! parent with
      | Some a, Some p =>
          if node_lt a p then sift_up fuel parent (swap i parent l) else l
      | _, _ => l
      end
  | _, _ => l
  end.

Definition smaller (l : list (Node Endpoint)) (child i : nat) : nat :=
  match l !! child, l !! i with
  | Some c, Some a => if node_lt c a then child else i
  | _, _ => i
  end.

Fixpoint sift_down (fuel i : nat) (l : list (Node Endpoint)) :=
  match fuel with
  | S fuel =>
      let smallest := smaller l (2 * i + 2) (smaller l (2 * i + 1) i) in
      if decide (smallest = i) then l
      else sift_down fuel smallest (swap i smallest l)
  | O => l
  end.

(** Modelled from the spec: [HeapBalancerSink._AddSink], "appends node to
    heap and sifts"; the node is new, with no load and an open channel. *)
Definition AddSink (e : Endpoint) (h : t) : t :=
  let counter := S (counter h) in
  let l := nodes h ++ [{| endpoint := e; load := 0; index := counter;
                          is_open := true |}] in
  {| nodes := sift_up (length l) (length l - 1) l; counter := counter |}.

(** Modelled from the spec: [HeapBalancerSink._RemoveSink], "removes node
    from heap (swap-with-last, sift)", and "no-op if not present". *)
Definition RemoveSink (e : Endpoint) (h : t) : t :=
  match list_find (λ n, endpoint n = e) (nodes h) with
  | Some (i, _) =>
      let last := length (nodes h) - 1 in
      let l := take last (swap i last (nodes h)) in
      {| nodes := sift_up (length l) i (sift_down (length l) i l);
         counter := counter h |}
  | None => h
  end.

#[global] Instance spec_heap : HeapBalancerSink Endpoint :=
  {| heap := t;
     heap_init := {| nodes := []; counter := 0 |};
     heap_tail := nodes;
     super_AddSink := AddSink;
     super_RemoveSink := RemoveSink |}.

End SpecHeap.

End SpecHeap.

(** ** The scenarios of the specification

    Three endpoints [a], [b] and [c], added in this order to a sink built
    with [min_size = 2]: [a] and [b] are active and [c] is idle. *)

Module Scenario.

Definition properties : SinkProperties :=
  {| smoothing_window := 5; min_size := 2; min_load := 0.5; max_load := 2;
     jitter_min_sec := 120; jitter_max_sec := 240 |}.

Definition start : ApertureBalancerSink string :=
  _AddSink "c" (_AddSink "b" (_AddSink "a" (__init__ properties 0 120))).

(** The heap node of [a], once its channel is closed. *)
Definition node_a : Node string :=
  {| endpoint := "a"; load := 0; index := 1; is_open := false |}.

(** Nothing waits at the start. *)
Definition start_system : System string :=
  {| sink := start; waiting := None |}.

(** The timer has fired, the cycle has brought [c] in and waits on its
    handle; [RemoveSink] is called for [c]. *)
Definition after_removal : System string :=
  {| sink := _RemoveSink "c" 0 (fst (Jitter_expand 0 start));
     waiting := Some "c" |}.

(** The options of a sink that asks for a smoothing window of 10 s. *)
Definition window_10 : SinkProperties :=
  {| smoothing_window := 10; min_size := 1; min_load := 0.5; max_load := 2;
     jitter_min_sec := 120; jitter_max_sec := 240 |}.

(** A new sink with the default options, the clock reading 0. *)
Definition fresh : ApertureBalancerSink string :=
  __init__ Builder_defaults 0 120.

End Scenario.


(** ** What is observed of the clock, the sink and its callers *)

(** The largest value so far, after each reading, starting from [m]. *)
Fixpoint running_max (m : R) (readings : list R) : list R :=
  match readings with
  | [] => []
  | r :: rest => Rmax m r :: running_max (Rmax m r) rest
  end.

Section Observed.

Context {Endpoint : Type} `{Countable Endpoint} `{HeapBalancerSink Endpoint}.

(** What the [active] and the [idle] gauge show: the last value written to
    each, if any. *)
Definition gauge_active (out : list (Effect Endpoint)) : option nat :=
  last (omap (λ x, match x with varz_active n => Some n | _ => None end) out).

Definition gauge_idle (out : list (Effect Endpoint)) : option nat :=
  last (omap (λ x, match x with varz_idle n => Some n | _ => None end) out).

(** A gauge is current for a size when it shows it, a gauge never written
    to being current for 0. *)
Definition shows (gauge : option nat) (n : nat) : Prop :=
  match gauge with Some m => m = n | None => n = 0 end.

Definition size_gauges_current (self : ApertureBalancerSink Endpoint) : Prop :=
  shows (gauge_active (_out self)) (size (_active_endpoints self))
  /\ shows (gauge_idle (_out self)) (size (_idle_endpoints self)).

(** The number of calls of [LOW_RESOLUTION_TIMER_QUEUE.Schedule]. *)
Definition is_timer (x : Effect Endpoint) : bool :=
  match x with timer_schedule _ => true | _ => false end.

Definition timers (out : list (Effect Endpoint)) : nat :=
  length (List.filter is_timer out).

(** The number of times the timer fires among the calls, and the number of
    cycles that wait on a handle (one at most). *)
Fixpoint fired (evs : list (Event Endpoint)) : nat :=
  match evs with
  | [] => 0
  | EvJitterFire _ _ :: rest => S (fired rest)
  | _ :: rest => fired rest
  end.

Definition waiting_cycles (s : System Endpoint) : nat :=
  match waiting s with Some _ => 1 | None => 0 end.

(** The endpoint of the waiting cycle, as a set. *)
Definition waiting_endpoint (s : System Endpoint) : gset Endpoint :=
  match waiting s with Some e => {[e]} | None => ∅ end.

(** No [ar.wait()] raises among the calls. *)
Definition wait_returns (ev : Event Endpoint) : Prop :=
  match ev with EvJitterWake WaitRaised _ => False | _ => True end.

(** Every [AddSink] among the calls, run from [s], is for an endpoint that
    the sink does not hold at that time. *)
Fixpoint adds_are_new (evs : list (Event Endpoint)) (s : System Endpoint)
  : Prop :=
  match evs with
  | [] => True
  | ev :: rest =>
      match ev with
      | EvAddSink e =>
          e ∉ _active_endpoints (sink s) ∪ _idle_endpoints (sink s)
      | _ => True
      end
      /\ match step ev s with
         | Some s' => adds_are_new rest s'
         | None => True
         end
  end.


(** The endpoints of the nodes of the heap, in array order. *)
Definition heap_endpoints (self : ApertureBalancerSink Endpoint)
  : list Endpoint :=
  endpoint <$> heap_tail (_heap self).

(** The number of heap nodes with an open channel ([num_healthy] in
    [_AddSink]). *)
Definition num_healthy (self : ApertureBalancerSink Endpoint) : nat :=
  length (filter (λ c, is_open c = true) (heap_tail (_heap self))).

(** [self'] has the sets, the heap and the configuration of [self]. *)
Definition same_aperture (self self' : ApertureBalancerSink Endpoint) : Prop :=
  _active_endpoints self' = _active_endpoints self
  /\ _idle_endpoints self' = _idle_endpoints self
  /\ _pending_endpoints self' = _pending_endpoints self
  /\ _heap self' = _heap self
  /\ _min_size self' = _min_size self
  /\ _min_load self' = _min_load self
  /\ _max_load self' = _max_load self.

End Observed.

(** ** More states of the scenarios *)

Module MoreScenarios.

(** The timer has fired and the cycle waits on the handle of [c]. *)
Definition waiting_for_c : System string :=
  {| sink := fst (Jitter_expand 0 Scenario.start); waiting := Some "c" |}.

(** The cycle has ended, its wait having come back without an exception. *)
Definition after_cycle : System string :=
  {| sink := fst (_Jitter 0 WaitDone 200 Scenario.start); waiting := None |}.

(** [a], [b] and [c] active, after [_OnNodeDown] for the node of [a]. *)
Definition three_active : ApertureBalancerSink string :=
  fst (_OnNodeDown Scenario.node_a 0 Scenario.start).

(** A sink built with [min_size = 0], to which [a] was added: nothing is
    active and [a] is idle. *)
Definition all_idle : ApertureBalancerSink string :=
  _AddSink "a"
    (__init__ {| smoothing_window := 5; min_size := 0; min_load := 0.5;
                 max_load := 2; jitter_min_sec := 120;
                 jitter_max_sec := 240 |} 0 120).

End MoreScenarios.

(** * Properties *)

(** ** MonoClock *)

Section MonoClockProperties.

Local Open Scope R_scope.

Lemma Sample_forward (c : MonoClock.t) (now : R) :
  MonoClock._last c < now ->
  MonoClock.Sample c now = (MonoClock.init now, now).
Proof.
  intros Hlt. unfold MonoClock.Sample, MonoClock.init.
  destruct (Rlt_dec 0 (now - MonoClock._last c)) as [_ | Hn]; [reflexivity | lra].
Qed.

Lemma Sample_backward (c : MonoClock.t) (now : R) :
  now <= MonoClock._last c ->
  MonoClock.Sample c now = (c, MonoClock._last c).
Proof.
  intros Hle. unfold MonoClock.Sample.
  destruct (Rlt_dec 0 (now - MonoClock._last c)) as [Hp | _]; [lra | reflexivity].
Qed.

Lemma Sample_returns_last (c : MonoClock.t) (now : R) :
  snd (MonoClock.Sample c now) = MonoClock._last (fst (MonoClock.Sample c now))
  /\ MonoClock._last c <= snd (MonoClock.Sample c now).
Proof.
  destruct (Rlt_le_dec (MonoClock._last c) now) as [Hlt | Hle].
  - rewrite (Sample_forward _ _ Hlt). simpl. split; [reflexivity | lra].
  - rewrite (Sample_backward _ _ Hle). simpl. split; [reflexivity | lra].
Qed.

Lemma samples_bounded_sorted (readings : list R) :
  forall c : MonoClock.t,
    Forall (Rle (MonoClock._last c)) (MonoClock.samples c readings)
    /\ StronglySorted Rle (MonoClock.samples c readings).
Proof.
  induction readings as [| now rest IH]; intros c; cbn [MonoClock.samples].
  - split; constructor.
  - destruct (Sample_returns_last c now) as [Hlast Hle].
    destruct (MonoClock.Sample c now) as [c' s] eqn:Hs. simpl in Hlast, Hle.
    destruct (IH c') as [Hb Hsorted]. rewrite <- Hlast in Hb.
    split.
    + constructor; [exact Hle |].
      eapply List.Forall_impl; [| exact Hb]. intros x Hx. simpl in Hx. lra.
    + constructor; assumption.
Qed.

(** C8. [Sample] never returns less than what the clock held before, and
    what it returns is what the clock holds afterwards; when the wall clock
    has not advanced past the held value, that value is returned again and
    the clock is unchanged; hence the samples of one instance, in the order
    of the calls, never decrease.  A clock built at a reading of at most 10
    answers the readings 10, 11, 10.5, 12 with 10, 11, 11, 12. *)
Theorem MonoClock_Sample_never_decreases :
  (forall (c : MonoClock.t) (now : R),
      MonoClock._last c <= snd (MonoClock.Sample c now)
      /\ snd (MonoClock.Sample c now)
         = MonoClock._last (fst (MonoClock.Sample c now)))
  /\ (forall (c : MonoClock.t) (now : R),
         now <= MonoClock._last c ->
         MonoClock.Sample c now = (c, MonoClock._last c))
  /\ (forall (c : MonoClock.t) (readings : list R),
         StronglySorted Rle (MonoClock.samples c readings))
  /\ (forall t0 : R,
         t0 <= 10 ->
         MonoClock.samples (MonoClock.init t0) [10; 11; 10.5; 12]
         = [10; 11; 11; 12]).
Proof.
  split; [| split; [| split]].
  - intros c now. destruct (Sample_returns_last c now); split; assumption.
  - exact Sample_backward.
  - intros c readings. apply samples_bounded_sorted.
  - intros t0 Ht0. cbn [MonoClock.samples].
    destruct (Rle_lt_or_eq_dec _ _ Ht0) as [Hlt | Heq].
    + rewrite Sample_forward by (simpl; lra).
      rewrite Sample_forward by (simpl; lra).
      rewrite Sample_backward by (simpl; lra).
      rewrite Sample_forward by (simpl; lra). reflexivity.
    + subst t0. rewrite Sample_backward by (simpl; lra).
      rewrite Sample_forward by (simpl; lra).
      rewrite Sample_backward by (simpl; lra).
      rewrite Sample_forward by (simpl; lra). reflexivity.
Qed.

Lemma MonoClock_Sample_never_decreases_witness :
  MonoClock.samples (MonoClock.init 10) [10; 11; 10.5; 12] = [10; 11; 11; 12].
Proof.
  apply (proj2 (proj2 (proj2 MonoClock_Sample_never_decreases)) 10). lra.
Defined.

End MonoClockProperties.

(** ** Ema *)

Section EmaProperties.

Local Open Scope R_scope.

Lemma Update_first (e : Ema.t) (ts x : R) :
  Ema._time e = -1 ->
  Ema.Update e ts x
  = ({| Ema._window := Ema._window e; Ema._time := ts; Ema._ema := x |}, x).
Proof.
  intros Ht. unfold Ema.Update.
  destruct (Req_dec_T (Ema._time e) (-1)) as [_ | Hn]; [reflexivity | contradiction].
Qed.

Lemma Update_later (e : Ema.t) (ts x : R) :
  Ema._time e <> -1 ->
  Ema.Update e ts x
  = (let w := EmaSpec.weight_nonzero (Ema._window e) (ts - Ema._time e) in
     let value := x * (1 - w) + Ema._ema e * w in
     ({| Ema._window := Ema._window e; Ema._time := ts; Ema._ema := value |},
      value)).
Proof.
  intros Ht. unfold Ema.Update, EmaSpec.weight_nonzero.
  destruct (Req_dec_T (Ema._time e) (-1)) as [Heq | _]; [contradiction | reflexivity].
Qed.

Lemma Update_window (e : Ema.t) (ts x : R) :
  Ema._window (fst (Ema.Update e ts x)) = Ema._window e.
Proof.
  unfold Ema.Update. destruct (Req_dec_T (Ema._time e) (-1)); reflexivity.
Qed.

(** One call of [Update] at a time other than [-1] is one step of the
    recurrence, on the state that the object stands for. *)
Lemma Update_simulates (e : Ema.t) (ts x : R) :
  ts <> -1 ->
  EmaSpec.Update EmaSpec.weight_nonzero (Ema._window e) (EmaSpec.abs e) ts x
  = (EmaSpec.abs (fst (Ema.Update e ts x)), snd (Ema.Update e ts x)).
Proof.
  intros Hts. unfold EmaSpec.abs at 1.
  destruct (Req_dec_T (Ema._time e) (-1)) as [Heq | Hne].
  - rewrite (Update_first _ _ _ Heq). unfold EmaSpec.abs. simpl.
    destruct (Req_dec_T ts (-1)); [contradiction | reflexivity].
  - rewrite (Update_later _ _ _ Hne). unfold EmaSpec.abs. simpl.
    destruct (Req_dec_T ts (-1)); [contradiction | reflexivity].
Qed.

Lemma updates_simulate (calls : list (R * R)) :
  forall e : Ema.t,
    Forall (fun c => fst c <> -1) calls ->
    Ema.updates e calls
    = EmaSpec.updates EmaSpec.weight_nonzero (Ema._window e) (EmaSpec.abs e)
        calls.
Proof.
  induction calls as [| [ts x] rest IH]; intros e Hcalls; [reflexivity |].
  inversion Hcalls as [| c l Hts Hrest]; subst. simpl in Hts.
  cbn [Ema.updates EmaSpec.updates].
  rewrite (Update_simulates e ts x Hts).
  destruct (Ema.Update e ts x) as [e' y] eqn:Hu. cbn [fst snd].
  rewrite (IH e' Hrest).
  replace (Ema._window e') with (Ema._window e); [reflexivity |].
  rewrite <- (Update_window e ts x), Hu. reflexivity.
Qed.

(** The time [-1] is the mark of an object that was never updated: after a
    first call at [-1] the next call is a first call again. *)
Lemma Update_at_marker_time (W x ts y : R) :
  Ema.updates (Ema.init W) [(-1, x); (ts, y)] = [x; y].
Proof.
  cbn [Ema.updates].
  rewrite (Update_first (Ema.init W)) by reflexivity.
  rewrite Update_first by reflexivity. reflexivity.
Qed.


(** C7, as the specification words it, fails for a negative window: the
    code gives the weight [exp(−Δ/W)] for every [W] other than 0, where the
    specification gives the weight 0.  With [W = −1], after [Update(0, 0)],
    the call [Update(1, 1)] returns [1 − e], not 1. *)
Lemma Ema_Update_negative_window :
  Ema.updates (Ema.init (-1)) [(0, 0); (1, 1)]
  <> EmaSpec.updates EmaSpec.weight_positive (-1) None [(0, 0); (1, 1)].
Proof.
  cbn [Ema.updates EmaSpec.updates EmaSpec.Update].
  rewrite Update_first by reflexivity.
  rewrite Update_later by (simpl; lra).
  unfold EmaSpec.weight_nonzero, EmaSpec.weight_positive. simpl.
  destruct (Req_dec_T (-1) 0) as [Heq | _]; [lra |].
  destruct (Rlt_dec 0 (-1)) as [Hlt | _]; [lra |].
  intros Heq. injection Heq as Heq.
  pose proof (exp_pos (- (1 - 0) / -1)) as Hpos. lra.
Qed.

(** C7, amended.  The first call of [Update] on a new object stores
    [(ts, x)] and returns [x].  A call on an object whose stored time is not
    the marker [-1] takes [Δ = ts − last_ts], [w = exp(−Δ/W)] when [W ≠ 0]
    and [w = 0] when [W = 0], stores [x·(1−w) + value·w] and [ts], and
    returns the new value, provided the argument [−Δ/W] of [math.exp] is
    within its range (at most 709; above about 709.78 [math.exp] raises);
    so every sequence of calls at times other than [-1], each within that
    range, returns what the recurrence returns.  For [W ≥ 0] this weight is
    the one of the specification, and with [W = 0] every call returns its
    sample. *)
Theorem Ema_Update_recurrence :
  (forall W ts x : R,
      Ema.Update (Ema.init W) ts x
      = ({| Ema._window := W; Ema._time := ts; Ema._ema := x |}, x))
  /\ (forall (e : Ema.t) (ts x : R),
         Ema._time e <> -1 ->
         Update_in_range e ts ->
         Ema.Update e ts x
         = (let w := EmaSpec.weight_nonzero (Ema._window e) (ts - Ema._time e) in
            let value := x * (1 - w) + Ema._ema e * w in
            ({| Ema._window := Ema._window e; Ema._time := ts;
                Ema._ema := value |}, value)))
  /\ (forall (W : R) (calls : list (R * R)),
         Forall (fun c => fst c <> -1) calls ->
         updates_in_range (Ema.init W) calls ->
         Ema.updates (Ema.init W) calls
         = EmaSpec.updates EmaSpec.weight_nonzero W None calls)
  /\ (forall W delta : R,
         0 <= W ->
         EmaSpec.weight_nonzero W delta = EmaSpec.weight_positive W delta)
  /\ (forall (e : Ema.t) (ts x : R),
         Ema._window e = 0 -> snd (Ema.Update e ts x) = x).
Proof.
  split; [| split; [| split; [| split]]].
  - intros W ts x. apply Update_first. reflexivity.
  - intros e ts x Ht _. apply Update_later, Ht.
  - intros W calls Hcalls _. rewrite (updates_simulate calls _ Hcalls).
    unfold EmaSpec.abs. simpl.
    destruct (Req_dec_T (-1) (-1)) as [_ | Hn]; [reflexivity | contradiction].
  - intros W delta HW. unfold EmaSpec.weight_nonzero, EmaSpec.weight_positive.
    destruct (Req_dec_T W 0), (Rlt_dec 0 W); try reflexivity; lra.
  - intros e ts x HW. unfold Ema.Update.
    destruct (Req_dec_T (Ema._time e) (-1)); [reflexivity |].
    destruct (Req_dec_T (Ema._window e) 0); [simpl; lra | contradiction].
Qed.

Lemma Ema_Update_recurrence_witness :
  Ema.updates (Ema.init 5) [(0, 1); (1, 3)]
  = EmaSpec.updates EmaSpec.weight_nonzero 5 None [(0, 1); (1, 3)]
  /\ EmaSpec.weight_nonzero 5 1 = EmaSpec.weight_positive 5 1.
Proof.
  split.
  - apply (proj1 (proj2 (proj2 Ema_Update_recurrence)) 5 [(0, 1); (1, 3)]).
    + repeat constructor; simpl; lra.
    + cbn [updates_in_range].
      rewrite (Update_first (Ema.init 5)) by reflexivity. cbn [fst].
      unfold Update_in_range, exp_argument, exp_in_range. simpl.
      destruct (Req_dec_T (-1) (-1)) as [_ | Hn]; [| contradiction].
      destruct (Req_dec_T 0 (-1)) as [Heq | _]; [lra |].
      destruct (Req_dec_T 5 0) as [Heq | _]; [lra |].
      repeat split; lra.
  - apply (proj1 (proj2 (proj2 (proj2 Ema_Update_recurrence))) 5 1). lra.
Defined.

(** C9, as the specification words it, fails for the window 0: the weight
    is then 0 whatever [Δ] is, and the value becomes the new sample.  After
    [Update(1, 1)] on an object of window 0, [Update(1, 2)] leaves 2. *)
Lemma Ema_Update_zero_delta_zero_window :
  let e := fst (Ema.Update (Ema.init 0) 1 1) in
  Ema._time e = 1
  /\ Ema._ema (fst (Ema.Update e (Ema._time e) 2)) <> Ema._ema e.
Proof.
  cbv zeta. rewrite (Update_first (Ema.init 0)) by reflexivity.
  cbn [fst Ema._time]. split; [reflexivity |].
  rewrite Update_later by (simpl; lra).
  unfold EmaSpec.weight_nonzero. simpl.
  destruct (Req_dec_T 0 0) as [_ | Hn]; [lra | contradiction].
Qed.

(** C9, amended.  On an object whose window is not 0 and whose stored time
    is not the marker [-1], [Update] at the stored time ([Δ = 0]) returns
    the stored value and leaves the object as it was, whatever the sample. *)
Theorem Ema_Update_zero_delta (e : Ema.t) (x : R) :
  Ema._window e <> 0 ->
  Ema._time e <> -1 ->
  Ema.Update e (Ema._time e) x = (e, Ema._ema e).
Proof.
  intros HW Ht. rewrite (Update_later _ _ _ Ht).
  unfold EmaSpec.weight_nonzero.
  destruct (Req_dec_T (Ema._window e) 0) as [Heq | _]; [contradiction |].
  replace (- (Ema._time e - Ema._time e) / Ema._window e) with 0
    by (field; exact HW).
  rewrite exp_0. cbn zeta.
  replace (x * (1 - 1) + Ema._ema e * 1) with (Ema._ema e) by ring.
  destruct e; reflexivity.
Qed.

Lemma Ema_Update_zero_delta_witness :
  Ema.Update (fst (Ema.Update (Ema.init 5) 0 1)) 0 7
  = (fst (Ema.Update (Ema.init 5) 0 1), 1).
Proof.
  rewrite (Update_first (Ema.init 5)) by reflexivity. cbn [fst].
  apply (Ema_Update_zero_delta
           {| Ema._window := 5; Ema._time := 0; Ema._ema := 1 |} 7);
    simpl; lra.
Defined.

Lemma Rabs_bounds (x a : R) : Rabs x <= a -> - a <= x <= a.
Proof.
  intros H. unfold Rabs in H. destruct (Rcase_abs x); lra.
Qed.

(** One rounding of a real of magnitude at most [T]. *)
Lemma round_error (rnd : R -> R) (u eta big t T : R) :
  (forall x : R, Rabs x <= big -> Rabs (rnd x - x) <= u * Rabs x + eta) ->
  0 <= u -> Rabs t <= T -> T <= big ->
  - (u * T + eta) <= rnd t - t <= u * T + eta.
Proof.
  intros Herr Hu Ht HT.
  apply Rabs_bounds.
  apply Rle_trans with (u * Rabs t + eta); [apply Herr; lra |].
  pose proof (Rabs_pos t). nra.
Qed.

(** The rounded combination [x·(1−w) + v·w], for a weight in [0, 1] and
    [x], [v] of magnitude at most [M], against the exact one. *)
Lemma rounded_combination (rnd : R -> R) (u eta big x v w M : R) :
  0 <= u <= / 8 -> 0 <= eta <= / 8 ->
  (forall x : R, Rabs x <= big -> Rabs (rnd x - x) <= u * Rabs x + eta) ->
  0 <= w <= 1 -> Rabs x <= M -> Rabs v <= M -> 4 * (M + 1) <= big ->
  Rabs (rnd (rnd (x * rnd (1 - w)) + rnd (v * w)) - (x * (1 - w) + v * w))
  <= 5 * u * M + (2 * M + 4) * eta.
Proof.
  intros Hu Heta Herr Hw Hx Hv Hbig.
  assert (HM : 0 <= M) by (pose proof (Rabs_pos x); lra).
  apply Rabs_bounds in Hx. apply Rabs_bounds in Hv.
  (* a = rnd (1 - w) *)
  assert (Ha : - (u * 1 + eta) <= rnd (1 - w) - (1 - w) <= u * 1 + eta).
  { apply (round_error rnd u eta big _ _ Herr); [lra | | lra].
    apply Rabs_le. lra. }
  set (a := rnd (1 - w)) in *.
  (* b = rnd (x * a) *)
  assert (Hxa : Rabs (x * a) <= M * (1 + u + eta)).
  { apply Rabs_le. split; nra. }
  assert (Hb : - (u * (M * (1 + u + eta)) + eta) <= rnd (x * a) - x * a
               <= u * (M * (1 + u + eta)) + eta).
  { apply (round_error rnd u eta big _ _ Herr); [lra | exact Hxa | nra]. }
  set (b := rnd (x * a)) in *.
  (* c = rnd (v * w) *)
  assert (Hvw : Rabs (v * w) <= M).
  { apply Rabs_le. split; nra. }
  assert (Hc : - (u * M + eta) <= rnd (v * w) - v * w <= u * M + eta).
  { apply (round_error rnd u eta big _ _ Herr); [lra | exact Hvw | lra]. }
  set (c := rnd (v * w)) in *.
  (* distances *)
  assert (Hbx : - (M * (u + eta) + u * (M * (1 + u + eta)) + eta)
                <= b - x * (1 - w)
                <= M * (u + eta) + u * (M * (1 + u + eta)) + eta).
  { split; nra. }
  set (EB := M * (u + eta) + u * (M * (1 + u + eta)) + eta) in *.
  set (EC := u * M + eta) in *.
  assert (Hconv : - M <= x * (1 - w) + v * w <= M) by (split; nra).
  assert (HEB : 0 <= EB <= M + 1) by (unfold EB; split; nra).
  assert (HEC : 0 <= EC <= M + 1) by (unfold EC; split; nra).
  assert (Hbc : Rabs (b + c) <= M + EB + EC).
  { apply Rabs_le. split; lra. }
  assert (Hy : - (u * (M + EB + EC) + eta) <= rnd (b + c) - (b + c)
               <= u * (M + EB + EC) + eta).
  { apply (round_error rnd u eta big _ _ Herr); [lra | exact Hbc | lra]. }
  set (y := rnd (b + c)) in *.
  apply Rabs_le.
  assert (Htotal : (1 + u) * (EB + EC) + u * M + eta
                   <= 5 * u * M + (2 * M + 4) * eta).
  { unfold EB, EC. clear - Hu Heta HM.
    assert (Hmu : 0 <= M * u) by nra.
    assert (Hme : 0 <= M * eta) by nra.
    assert (H1 : M * u * u <= M * u / 8) by nra.
    assert (H2 : M * u * u * u <= M * u / 64) by nra.
    assert (H3 : M * u * eta <= M * eta / 8) by nra.
    assert (H4 : M * u * u * eta <= M * eta / 64) by nra.
    assert (H5 : u * eta <= eta / 8) by nra.
    replace ((1 + u) * (M * (u + eta) + u * (M * (1 + u + eta)) + eta
                        + (u * M + eta)) + u * M + eta)
      with (4 * (M * u) + 4 * (M * u * u) + M * u * u * u
            + 2 * (M * u * eta) + M * u * u * eta + M * eta
            + 3 * eta + 2 * (u * eta)) by ring.
    replace (5 * u * M + (2 * M + 4) * eta)
      with (5 * (M * u) + 2 * (M * eta) + 4 * eta) by ring.
    lra. }
  clear - Hbx Hc Hy Htotal Hu HEB HEC HM. split; nra.
Qed.

(** C10, as the specification words it, fails on binary64: on an object of
    window 5 that holds 3.0 since the time 0, [Update(6.75, 3)] computes
    [3·(1−w) + 3.0·w] with [w = math.exp(-1.35)] and returns
    3.0000000000000004, above both the stored value and the sample. *)
Lemma Ema_Update_rounds_outside :
  let e := fst (EmaFloat.Update EmaFloat.math_exp_scenario (EmaFloat.init 5)
                  0 3) in
  let y := snd (EmaFloat.Update EmaFloat.math_exp_scenario e 6.75 3) in
  EmaFloat._ema e = 3%float
  /\ y = 0x1.8000000000001p+1%float
  /\ PrimFloat.ltb 3 y = true.
Proof. vm_compute. repeat split. Qed.

(** C10, amended.  With a window above 0 and a time that is not before the
    stored one, the value [Update] returns is, up to rounding, a
    combination [x·(1−w) + value·w] of the sample and the stored value with
    a weight [w] in [0, 1]: it differs from that combination, and so from
    the interval between the stored value and the sample, by at most the
    rounding error [5·u·M + (2·M + 4)·η], for a stored value and a sample of
    magnitude at most [M], [u] and [η] being the relative and the absolute
    error of one rounding.  In exact arithmetic ([u = η = 0]) it lies
    between the two. *)
Theorem Ema_Update_between_up_to_rounding (rnd math_exp : R -> R)
    (u eta big M : R) (e : Ema.t) (ts x : R) :
  EmaRounded.binary64_rounding rnd u eta big ->
  EmaRounded.exp_in_unit math_exp ->
  0 < Ema._window e ->
  0 <= ts - Ema._time e ->
  Rabs (Ema._ema e) <= M ->
  Rabs x <= M ->
  4 * (M + 1) <= big ->
  let y := snd (EmaRounded.Update rnd math_exp e ts x) in
  let E := EmaRounded.rounding_error u eta M in
  Rmin (Ema._ema e) x - E <= y <= Rmax (Ema._ema e) x + E
  /\ exists w : R,
      0 <= w <= 1 /\ Rabs (y - (x * (1 - w) + Ema._ema e * w)) <= E.
Proof.
  intros (Hu & Heta & Hmono & Hzero & Herr) Hexp HW Hd Hv Hx Hbig.
  cbn zeta.
  assert (HM : 0 <= M) by (pose proof (Rabs_pos x); lra).
  assert (HE : 0 <= EmaRounded.rounding_error u eta M).
  { unfold EmaRounded.rounding_error. nra. }
  assert (Hbetween : forall w : R, 0 <= w <= 1 ->
            Rmin (Ema._ema e) x <= x * (1 - w) + Ema._ema e * w
            <= Rmax (Ema._ema e) x).
  { intros w Hw. unfold Rmin, Rmax.
    destruct (Rle_dec (Ema._ema e) x); split; nra. }
  assert (Hgoal : forall y w : R, 0 <= w <= 1 ->
            Rabs (y - (x * (1 - w) + Ema._ema e * w))
            <= EmaRounded.rounding_error u eta M ->
            Rmin (Ema._ema e) x - EmaRounded.rounding_error u eta M <= y
            <= Rmax (Ema._ema e) x + EmaRounded.rounding_error u eta M
            /\ exists w0 : R,
                0 <= w0 <= 1
                /\ Rabs (y - (x * (1 - w0) + Ema._ema e * w0))
                   <= EmaRounded.rounding_error u eta M).
  { intros y w Hw Hy. split; [| exists w; split; assumption].
    apply Rabs_bounds in Hy. specialize (Hbetween w Hw). lra. }
  unfold EmaRounded.Update.
  destruct (Req_dec_T (Ema._time e) (-1)) as [_ | _]; cbn [snd Ema._ema].
  - apply (Hgoal x 0); [lra |].
    replace (x - (x * (1 - 0) + Ema._ema e * 0)) with 0 by ring.
    rewrite Rabs_R0. exact HE.
  - destruct (Req_dec_T (Ema._window e) 0) as [HW0 | _]; [lra |].
    set (delta := rnd (ts - Ema._time e)).
    assert (Hdelta : 0 <= delta).
    { unfold delta. rewrite <- Hzero. apply Hmono. exact Hd. }
    assert (Harg : rnd (- delta / Ema._window e) <= 0).
    { apply Rle_trans with (rnd 0); [apply Hmono | rewrite Hzero; lra].
      unfold Rdiv.
      assert (0 < / Ema._window e) by (apply Rinv_0_lt_compat; exact HW).
      nra. }
    pose proof (Hexp _ Harg) as Hw.
    set (w := math_exp (rnd (- delta / Ema._window e))) in *.
    apply (Hgoal _ w Hw).
    unfold EmaRounded.rounding_error.
    apply (rounded_combination rnd u eta big x (Ema._ema e) w M);
      assumption.
Qed.

Lemma Ema_Update_between_up_to_rounding_witness :
  Rmin 1 3 - EmaRounded.rounding_error 0 0 3
  <= snd (EmaRounded.Update (fun r => r) exp
            {| Ema._window := 5; Ema._time := 0; Ema._ema := 1 |} 2 3)
  <= Rmax 1 3 + EmaRounded.rounding_error 0 0 3.
Proof.
  apply (Ema_Update_between_up_to_rounding (fun r => r) exp 0 0 100 3
           {| Ema._window := 5; Ema._time := 0; Ema._ema := 1 |} 2 3).
  - unfold EmaRounded.binary64_rounding. repeat split; try lra.
    + intros x y Hxy. exact Hxy.
    + intros x _. replace (x - x) with 0 by ring. rewrite Rabs_R0.
      pose proof (Rabs_pos x). lra.
  - intros x Hx. split; [left; apply exp_pos |].
    destruct Hx as [Hlt | Heq].
    + left. rewrite <- exp_0. apply exp_increasing. exact Hlt.
    + right. rewrite Heq. apply exp_0.
  - simpl. lra.
  - simpl. lra.
  - simpl. rewrite Rabs_pos_eq; lra.
  - rewrite Rabs_pos_eq; lra.
  - lra.
Defined.

End EmaProperties.

(** ** ApertureBalancerSink: what each method does to the sets *)

Section SinkProperties.

Context {Endpoint : Type} `{Countable Endpoint} {base : HeapBalancerSink Endpoint}.

Implicit Types (self : ApertureBalancerSink Endpoint) (e : Endpoint).

#[local] Set Warnings "-clear-no-such-hyp".

Lemma random_choice_elem (pick : nat) (d : Endpoint) (rest : list Endpoint) :
  random_choice pick d rest ∈ d :: rest.
Proof.
  unfold random_choice. apply list_elem_of_In, nth_In.
  apply Nat.mod_upper_bound. discriminate.
Qed.

(** Every idle endpoint can be the one [random.choice] draws. *)
Lemma random_choice_any (d : Endpoint) (rest : list Endpoint) e :
  e ∈ d :: rest -> exists pick, random_choice pick d rest = e.
Proof.
  intros He. apply list_elem_of_In in He.
  destruct (In_nth _ _ d He) as (n & Hn & Hnth).
  exists n. unfold random_choice.
  change (S (length rest)) with (length (d :: rest)).
  rewrite Nat.mod_small by exact Hn. exact Hnth.
Qed.

(** [_TryExpandAperture]: with no idle endpoint it only refreshes the size
    gauges; otherwise it moves an idle endpoint into the aperture. *)
Lemma TryExpandAperture_cases (pick : nat) self :
  (_idle_endpoints self = ∅
   /\ _TryExpandAperture pick self = (_UpdateSizeVarz self, (Complete, None)))
  \/ (exists e,
        (e ∈ _idle_endpoints self)
        /\ _TryExpandAperture pick self
           = (_UpdateSizeVarz
                (set_heap (super_AddSink e (_heap self))
                   (emit (log_expanding e)
                      (set_active ({[e]} ∪ _active_endpoints self)
                         (set_idle (_idle_endpoints self ∖ {[e]}) self)))),
              (AddSinkResult e, Some e))).
Proof.
  unfold _TryExpandAperture.
  destruct (elements (_idle_endpoints self)) as [| d rest] eqn:Hel.
  - left. split; [| reflexivity]. apply elements_empty_inv in Hel.
    apply leibniz_equiv. exact Hel.
  - right. exists (random_choice pick d rest). split; [| reflexivity].
    apply elem_of_elements. rewrite Hel. apply random_choice_elem.
Qed.

(** [_ContractAperture]: it leaves the sink as it is, or moves out of the
    aperture the endpoint of a heap node that is not pending. *)
Lemma ContractAperture_cases self :
  _ContractAperture self = self
  \/ (exists e,
        (e ∉ _pending_endpoints self)
        /\ (_min_size self < Z.of_nat (size (_active_endpoints self)))%Z
        /\ least_loaded_endpoint self = Some e
        /\ _ContractAperture self
           = _UpdateSizeVarz
               (emit (log_contracting e)
                  (set_heap (super_RemoveSink e (_heap self))
                     (set_idle ({[e]} ∪ _idle_endpoints self)
                        (set_active (_active_endpoints self ∖ {[e]}) self))))).
Proof.
  unfold _ContractAperture.
  destruct (decide (_min_size self < Z.of_nat (size (_active_endpoints self)))%Z)
    as [Hsize | _]; [| left; reflexivity].
  destruct (least_loaded_endpoint self) as [e |] eqn:Hscan; [| left; reflexivity].
  right. exists e. repeat split; try assumption.
  unfold least_loaded_endpoint in Hscan.
  destruct (List.find _ _) as [n |] eqn:Hfind; [| discriminate].
  simpl in Hscan. injection Hscan as <-.
  apply find_some in Hfind. destruct Hfind as [_ Hb].
  apply bool_decide_eq_true in Hb. exact Hb.
Qed.

Lemma TryExpandAperture_same_load (pick : nat) self :
  same_load self (fst (_TryExpandAperture pick self)).
Proof.
  destruct (TryExpandAperture_cases pick self) as [[_ Heq] | (e & _ & Heq)];
    rewrite Heq; repeat split.
Qed.

Lemma ContractAperture_same_load self :
  same_load self (_ContractAperture self).
Proof.
  destruct (ContractAperture_cases self) as [Heq | (e & _ & _ & _ & Heq)];
    rewrite Heq; repeat split.
Qed.

Lemma TryExpandAperture_pending (X : gset Endpoint) (pick : nat) self :
  pending_within X self ->
  pending_within X (fst (_TryExpandAperture pick self)).
Proof.
  unfold pending_within.
  destruct (TryExpandAperture_cases pick self) as [[_ Heq] | (e & _ & Heq)];
    rewrite Heq; simpl; set_solver.
Qed.

Lemma ContractAperture_pending (X : gset Endpoint) self :
  pending_within X self -> pending_within X (_ContractAperture self).
Proof.
  unfold pending_within.
  destruct (ContractAperture_cases self) as [Heq | (e & He & _ & _ & Heq)];
    rewrite Heq; simpl; set_solver.
Qed.

Lemma AddSink_pending (X : gset Endpoint) e self :
  pending_within X self -> pending_within X (_AddSink e self).
Proof.
  unfold pending_within, _AddSink.
  destruct (decide _); simpl; set_solver.
Qed.

Lemma RemoveSink_pending (X : gset Endpoint) e (pick : nat) self :
  pending_within X self ->
  pending_within (X ∪ {[e]}) (_RemoveSink e pick self).
Proof.
  intros HX. unfold _RemoveSink. cbn zeta.
  set (self0 := set_heap (super_RemoveSink e (_heap self)) self).
  assert (Hp0 : pending_within X self0) by exact HX.
  set (self1 := if decide (e ∈ _active_endpoints self0) then _ else self0).
  assert (Hp1 : pending_within (X ∪ {[e]}) self1).
  { subst self1. destruct (decide (e ∈ _active_endpoints self0)).
    - apply TryExpandAperture_pending. revert Hp0. unfold pending_within.
      simpl. intros Hp0 x Hx. destruct (decide (x = e)); set_solver.
    - revert Hp0. unfold pending_within. set_solver. }
  revert Hp1. unfold pending_within.
  destruct (decide (e ∈ _idle_endpoints self1)); simpl; set_solver.
Qed.

Lemma OnNodeDown_pending (X : gset Endpoint) (node : Node Endpoint)
    (pick : nat) self :
  pending_within X self ->
  pending_within X (fst (_OnNodeDown node pick self)).
Proof.
  intros HX. unfold _OnNodeDown.
  destruct (decide (endpoint node ∈ _active_endpoints self)); [| exact HX].
  pose proof (TryExpandAperture_pending X pick self HX) as Hp.
  destruct (_TryExpandAperture pick self) as [self' [ar oe]]. exact Hp.
Qed.

Lemma AdjustAperture_pending (X : gset Endpoint) (amount : Z) (now : R)
    (pick : nat) self :
  pending_within X self ->
  pending_within X (_AdjustAperture amount now pick self).
Proof.
  intros HX. unfold _AdjustAperture.
  destruct (MonoClock.Sample (_time self) now) as [clock ts].
  destruct (Ema.Update (_ema self) ts _) as [ema avg]. cbn zeta.
  set (self1 := set_load _ ema clock self).
  set (self2 := if decide (size (_active_endpoints self1) = 0) then self1 else _).
  assert (Hp2 : pending_within X self2).
  { subst self2. destruct (decide _); exact HX. }
  destruct (_ && _).
  - apply TryExpandAperture_pending, Hp2.
  - destruct (_ && _); [apply ContractAperture_pending |]; exact Hp2.
Qed.

Lemma RemoveSink_same_load e (pick : nat) self :
  same_load self (_RemoveSink e pick self).
Proof.
  unfold _RemoveSink. cbn zeta.
  set (self0 := set_heap (super_RemoveSink e (_heap self)) self).
  set (self1 := if decide (e ∈ _active_endpoints self0) then _ else self0).
  assert (Hs1 : same_load self self1).
  { subst self1. destruct (decide (e ∈ _active_endpoints self0)).
    - apply (TryExpandAperture_same_load pick
               (set_active (_active_endpoints self0 ∖ {[e]}) self0)).
    - repeat split. }
  destruct (decide (e ∈ _idle_endpoints self1)); exact Hs1.
Qed.

Lemma Jitter_expand_pending (X : gset Endpoint) (pick : nat) self :
  pending_within X self ->
  pending_within X (fst (Jitter_expand pick self)).
Proof.
  unfold pending_within, Jitter_expand.
  destruct (TryExpandAperture_cases pick self) as [[_ Heq] | (e & _ & Heq)];
    rewrite Heq; simpl; set_solver.
Qed.

Lemma Jitter_resume_pending (X : gset Endpoint) e (outcome : WaitOutcome)
    self :
  pending_within X self ->
  pending_within X (fst (Jitter_resume e outcome self)).
Proof.
  intros HX. destruct outcome; simpl.
  - pose proof (ContractAperture_pending X self HX) as Hc.
    revert Hc. unfold pending_within. simpl. set_solver.
  - revert HX. unfold pending_within. simpl. set_solver.
  - exact HX.
Qed.

(** One call keeps every pending endpoint active, the endpoint that the
    call removes from the server set apart. *)
Lemma step_pending (X : gset Endpoint) (ev : Event Endpoint)
    (s s' : System Endpoint) :
  step ev s = Some s' ->
  pending_within X (sink s) ->
  pending_within (X ∪ removed [ev]) (sink s').
Proof.
  intros Hstep HX.
  assert (Hweaken : forall self, pending_within X self ->
                                 pending_within (X ∪ ∅) self).
  { intros self. unfold pending_within. set_solver. }
  destruct ev; simpl in Hstep |- *.
  - injection Hstep as <-. apply Hweaken, AddSink_pending, HX.
  - injection Hstep as <-. simpl.
    replace (X ∪ ({[e]} ∪ ∅)) with (X ∪ {[e]}) by set_solver.
    apply RemoveSink_pending, HX.
  - injection Hstep as <-. apply Hweaken, OnNodeDown_pending, HX.
  - injection Hstep as <-. apply Hweaken, AdjustAperture_pending, HX.
  - injection Hstep as <-. apply Hweaken, AdjustAperture_pending, HX.
  - injection Hstep as <-. apply Hweaken, HX.
  - destruct (waiting s); [discriminate |].
    pose proof (Jitter_expand_pending X pick (sink s) HX) as He.
    destruct (Jitter_expand pick (sink s)) as [self [ar [e |]]];
      injection Hstep as <-; apply Hweaken, He.
  - destruct (waiting s) as [e |]; [| discriminate].
    injection Hstep as <-. apply Hweaken. simpl.
    apply (Jitter_resume_pending X e outcome (sink s) HX).
Qed.

Lemma run_pending (evs : list (Event Endpoint)) :
  forall (X : gset Endpoint) (s s' : System Endpoint),
    run evs s = Some s' ->
    pending_within X (sink s) ->
    pending_within (X ∪ removed evs) (sink s').
Proof.
  induction evs as [| ev rest IH]; intros X s s' Hrun HX.
  - injection Hrun as <-. revert HX. unfold pending_within. set_solver.
  - cbn [run] in Hrun. destruct (step ev s) as [s1 |] eqn:Hstep; [| discriminate].
    pose proof (step_pending X ev s s1 Hstep HX) as H1.
    pose proof (IH _ _ _ Hrun H1) as H2.
    replace (X ∪ removed (ev :: rest)) with (X ∪ removed [ev] ∪ removed rest);
      [exact H2 |].
    destruct ev; simpl; set_solver.
Qed.

Lemma removed_elem (evs : list (Event Endpoint)) e :
  e ∈ removed evs -> exists pick, EvRemoveSink e pick ∈ evs.
Proof.
  induction evs as [| ev rest IH]; simpl; [set_solver |].
  intros He.
  assert (Hrest : e ∈ removed rest -> exists pick, EvRemoveSink e pick ∈ ev :: rest).
  { intros Hin. destruct (IH Hin) as [pick Hp]. exists pick. set_solver. }
  destruct ev; try (apply Hrest; exact He).
  apply elem_of_union in He. destruct He as [He | He]; [| apply Hrest; exact He].
  apply elem_of_singleton in He. subst. exists pick. set_solver.
Qed.

(** C3, amended.  A call keeps [pending ⊆ active] unless it is [RemoveSink]
    for an endpoint that is pending; and along every interleaving of calls
    from a state where [pending ⊆ active], jitter cycles waiting on their
    handles included, a pending endpoint that is not active is one for
    which [RemoveSink] was called. *)
Theorem pending_active_unless_removed :
  (forall (ev : Event Endpoint) (s s' : System Endpoint),
      step ev s = Some s' ->
      _pending_endpoints (sink s) ⊆ _active_endpoints (sink s) ->
      (forall e pick,
          ev = EvRemoveSink e pick -> e ∉ _pending_endpoints (sink s)) ->
      _pending_endpoints (sink s') ⊆ _active_endpoints (sink s'))
  /\ (forall (evs : list (Event Endpoint)) (s s' : System Endpoint),
         run evs s = Some s' ->
         _pending_endpoints (sink s) ⊆ _active_endpoints (sink s) ->
         forall e,
           e ∈ _pending_endpoints (sink s') ->
           e ∈ _active_endpoints (sink s')
           \/ exists pick, EvRemoveSink e pick ∈ evs).
Proof.
  split.
  - intros ev s s' Hstep Hinv Hev.
    assert (H0 : pending_within ∅ (sink s)).
    { revert Hinv. unfold pending_within. set_solver. }
    pose proof (step_pending ∅ ev s s' Hstep H0) as H1.
    destruct ev as [e | e pick | | | | | |];
      try (revert H1; unfold pending_within; simpl; set_solver).
    simpl in Hstep. injection Hstep as <-.
    pose proof (Hev e pick eq_refl) as Hne.
    destruct (RemoveSink_same_load e pick (sink s))
      as (_ & _ & _ & _ & _ & _ & Hsame).
    revert H1. unfold pending_within, with_sink. cbn [sink removed].
    rewrite Hsame. intros H1 x Hx. destruct (decide (x = e)); set_solver.
  - intros evs s s' Hrun Hinv e He.
    assert (H0 : pending_within ∅ (sink s)).
    { revert Hinv. unfold pending_within. set_solver. }
    pose proof (run_pending evs ∅ s s' Hrun H0) as H1.
    apply H1 in He. apply elem_of_union in He. destruct He as [He | He].
    + left. exact He.
    + right. apply removed_elem. set_solver.
Qed.

(** ** ApertureBalancerSink: the load counter and the EMA *)

Lemma AddSink_same_load e self : same_load self (_AddSink e self).
Proof. unfold _AddSink. destruct (decide _); repeat split. Qed.

Lemma OnNodeDown_same_load (node : Node Endpoint) (pick : nat) self :
  same_load self (fst (_OnNodeDown node pick self)).
Proof.
  unfold _OnNodeDown.
  destruct (decide (endpoint node ∈ _active_endpoints self)); [| repeat split].
  pose proof (TryExpandAperture_same_load pick self) as Hs.
  destruct (_TryExpandAperture pick self) as [self' [ar oe]]. exact Hs.
Qed.

Lemma Jitter_expand_total (pick : nat) self :
  _total (fst (Jitter_expand pick self)) = _total self.
Proof.
  unfold Jitter_expand.
  destruct (TryExpandAperture_cases pick self) as [[_ Heq] | (e & _ & Heq)];
    rewrite Heq; reflexivity.
Qed.

Lemma Jitter_resume_total e (outcome : WaitOutcome) self :
  _total (fst (Jitter_resume e outcome self)) = _total self.
Proof.
  destruct outcome; simpl; try reflexivity.
  apply (ContractAperture_same_load self).
Qed.

(** [_AdjustAperture] adds [amount] to the counter, samples the clock and
    feeds the new counter, as it is, to the EMA. *)
Lemma AdjustAperture_load (amount : Z) (now : R) (pick : nat) self :
  let self' := _AdjustAperture amount now pick self in
  _total self' = (_total self + amount)%Z
  /\ _time self' = fst (MonoClock.Sample (_time self) now)
  /\ _ema self'
     = fst (Ema.Update (_ema self) (snd (MonoClock.Sample (_time self) now))
              (IZR (_total self + amount))).
Proof.
  unfold _AdjustAperture.
  destruct (MonoClock.Sample (_time self) now) as [clock ts].
  cbn [fst snd].
  destruct (Ema.Update (_ema self) ts _) as [ema avg]. cbn zeta. cbn [fst].
  set (self1 := set_load _ ema clock self).
  set (self2 := if decide (size (_active_endpoints self1) = 0) then self1 else _).
  assert (H2 : same_load self1 self2).
  { subst self2. destruct (decide _); repeat split. }
  assert (Hgoal : forall self3, same_load self2 self3 ->
            _total self3 = (_total self + amount)%Z
            /\ _time self3 = clock /\ _ema self3 = ema).
  { intros self3 (Ht & He & Hc & _). destruct H2 as (Ht2 & He2 & Hc2 & _).
    rewrite Ht, He, Hc, Ht2, He2, Hc2. repeat split. }
  destruct (_ && _).
  - apply Hgoal, TryExpandAperture_same_load.
  - destruct (_ && _); apply Hgoal;
      [apply ContractAperture_same_load | repeat split].
Qed.

Lemma step_total (ev : Event Endpoint) (s s' : System Endpoint) :
  step ev s = Some s' ->
  _total (sink s') = (_total (sink s) + net_load [ev])%Z.
Proof.
  intros Hstep. destruct ev; simpl in Hstep |- *.
  - injection Hstep as <-. simpl. rewrite Z.add_0_r.
    apply (AddSink_same_load e (sink s)).
  - injection Hstep as <-. simpl. rewrite Z.add_0_r.
    apply (RemoveSink_same_load e pick (sink s)).
  - injection Hstep as <-. simpl. rewrite Z.add_0_r.
    apply (OnNodeDown_same_load node pick (sink s)).
  - injection Hstep as <-. simpl.
    apply (AdjustAperture_load 1 now pick (sink s)).
  - injection Hstep as <-. simpl.
    apply (AdjustAperture_load (-1) now pick (sink s)).
  - injection Hstep as <-. simpl. lia.
  - destruct (waiting s); [discriminate |].
    pose proof (Jitter_expand_total pick (sink s)) as He.
    destruct (Jitter_expand pick (sink s)) as [self [ar [e |]]];
      injection Hstep as <-; simpl in *; lia.
  - destruct (waiting s) as [e |]; [| discriminate].
    injection Hstep as <-. simpl. rewrite Z.add_0_r.
    apply Jitter_resume_total.
Qed.

Lemma run_total (evs : list (Event Endpoint)) :
  forall s s' : System Endpoint,
    run evs s = Some s' ->
    _total (sink s') = (_total (sink s) + net_load evs)%Z.
Proof.
  induction evs as [| ev rest IH]; intros s s' Hrun.
  - injection Hrun as <-. simpl. lia.
  - cbn [run] in Hrun. destruct (step ev s) as [s1 |] eqn:Hstep; [| discriminate].
    rewrite (IH _ _ Hrun), (step_total _ _ _ Hstep).
    destruct ev; simpl; lia.
Qed.

(** C5, amended.  The load counter is read as it is, without a clamp:
    [_AdjustAperture] adds the amount to [_total] and feeds the new
    [_total] to the EMA at the sampled time; over any calls, [_total] is
    what it was plus the [Get]s less the [Put]s; and the value fed is
    non-negative exactly when the new counter is. *)
Theorem AdjustAperture_feeds_total_unclamped :
  (forall (amount : Z) (now : R) (pick : nat) self,
      let self' := _AdjustAperture amount now pick self in
      _total self' = (_total self + amount)%Z
      /\ _time self' = fst (MonoClock.Sample (_time self) now)
      /\ _ema self'
         = fst (Ema.Update (_ema self)
                  (snd (MonoClock.Sample (_time self) now))
                  (IZR (_total self + amount))))
  /\ (forall (evs : list (Event Endpoint)) (s s' : System Endpoint),
         run evs s = Some s' ->
         _total (sink s') = (_total (sink s) + net_load evs)%Z)
  /\ (forall (amount : Z) self,
         (0 <= IZR (_total self + amount))%R <-> (0 <= _total self + amount)%Z).
Proof.
  split; [| split].
  - exact AdjustAperture_load.
  - intros evs. apply run_total.
  - intros amount self. split; intros Hle.
    + apply le_IZR. exact Hle.
    + apply IZR_le. exact Hle.
Qed.

(** [__init__] builds the EMA with the window 5, whatever the options. *)
Lemma init_window (sink_properties : SinkProperties) (now : R) (delay : Z) :
  Ema._window (_ema (__init__ sink_properties now delay)) = 5%R.
Proof. unfold __init__. destruct (decide _); reflexivity. Qed.

(** ** ApertureBalancerSink: one resize at most for each [Get] and [Put] *)

Lemma float_ge_true (x y : R) : float_ge x y = true <-> (x >= y)%R.
Proof. unfold float_ge. destruct (Rge_dec x y); split; auto; discriminate. Qed.

Lemma float_le_true (x y : R) : float_le x y = true <-> (x <= y)%R.
Proof. unfold float_le. destruct (Rle_dec x y); split; auto; discriminate. Qed.

Lemma any_elements (s : gset Endpoint) : any (elements s) = true <-> s ≠ ∅.
Proof.
  destruct (elements s) as [| d rest] eqn:Hel; simpl.
  - apply elements_empty_inv, leibniz_equiv in Hel. split; [discriminate | tauto].
  - split; [| reflexivity]. intros _ ->. rewrite elements_empty in Hel.
    discriminate.
Qed.

Lemma expand_decision (load : R) self :
  float_ge load (_max_load self) && any (elements (_idle_endpoints self)) = true
  <-> (load >= _max_load self)%R /\ _idle_endpoints self ≠ ∅.
Proof. rewrite andb_true_iff, float_ge_true, any_elements. reflexivity. Qed.

Lemma contract_decision (load : R) self :
  float_le load (_min_load self)
  && bool_decide (_min_size self < Z.of_nat (size (_active_endpoints self)))%Z
  = true
  <-> (load <= _min_load self)%R
      /\ (_min_size self < Z.of_nat (size (_active_endpoints self)))%Z.
Proof. rewrite andb_true_iff, float_le_true, bool_decide_eq_true. reflexivity. Qed.

(** What [_TryExpandAperture] writes when an endpoint is idle, and what
    [_ContractAperture] writes when it contracts. *)
Lemma TryExpandAperture_out (pick : nat) self :
  _idle_endpoints self ≠ ∅ ->
  exists e,
    e ∈ _idle_endpoints self
    /\ _active_endpoints (fst (_TryExpandAperture pick self))
       = {[e]} ∪ _active_endpoints self
    /\ _idle_endpoints (fst (_TryExpandAperture pick self))
       = _idle_endpoints self ∖ {[e]}
    /\ _out (fst (_TryExpandAperture pick self))
       = _out self
         ++ [log_expanding e;
             varz_active (size ({[e]} ∪ _active_endpoints self));
             varz_idle (size (_idle_endpoints self ∖ {[e]}))].
Proof.
  intros Hidle.
  destruct (TryExpandAperture_cases pick self) as [[He _] | (e & He & Heq)];
    [contradiction |].
  exists e. rewrite Heq. simpl. rewrite <- !app_assoc. repeat split. exact He.
Qed.

Lemma ContractAperture_out self :
  (_ContractAperture self = self)
  \/ (exists e,
        (e ∉ _pending_endpoints self)
        /\ _active_endpoints (_ContractAperture self)
           = _active_endpoints self ∖ {[e]}
        /\ _idle_endpoints (_ContractAperture self)
           = {[e]} ∪ _idle_endpoints self
        /\ _out (_ContractAperture self)
           = _out self
             ++ [log_contracting e;
                 varz_active (size (_active_endpoints self ∖ {[e]}));
                 varz_idle (size ({[e]} ∪ _idle_endpoints self))]).
Proof.
  destruct (ContractAperture_cases self) as [Heq | (e & He & _ & _ & Heq)];
    [left; exact Heq | right].
  exists e. rewrite Heq. simpl. rewrite <- !app_assoc. repeat split. exact He.
Qed.

(** C6.  In [_AdjustAperture] the per-node load is [max_load] when the
    aperture is empty, and then no [load_average] is published; otherwise it
    is the average over the size of the aperture, published once.  What the
    call does next is one of three things, by the load and the sizes before
    it: it expands by one idle endpoint (load at or above [max_load], and an
    idle endpoint); or else it runs the contraction, which moves at most one
    endpoint, not a pending one, out of the aperture (load at or below
    [min_load], and more than [min_size] active); or else it leaves the sets
    alone.  In every case at most one resize is logged. *)
Theorem AdjustAperture_at_most_one_resize (amount : Z) (now : R) (pick : nat)
    self :
  let avg :=
    snd (Ema.Update (_ema self) (snd (MonoClock.Sample (_time self) now))
           (IZR (_total self + amount))) in
  let load := aperture_load avg self in
  let active := _active_endpoints self in
  let idle := _idle_endpoints self in
  let expand := (load >= _max_load self)%R /\ idle ≠ ∅ in
  let contract :=
    (load <= _min_load self)%R /\ (_min_size self < Z.of_nat (size active))%Z in
  let self' := _AdjustAperture amount now pick self in
  (size active = 0 -> load = _max_load self)
  /\ (size active ≠ 0 -> load = (avg / INR (size active))%R)
  /\ exists new,
      _out self' = _out self ++ new
      /\ resizes new <= 1
      /\ List.filter is_load_average new
         = (if decide (size active = 0) then []
            else [varz_load_average load])
      /\ ((expand
           /\ exists e,
               e ∈ idle
               /\ _active_endpoints self' = {[e]} ∪ active
               /\ _idle_endpoints self' = idle ∖ {[e]}
               /\ List.filter is_resize new = [log_expanding e])
          \/ (~ expand /\ contract
              /\ ((_active_endpoints self' = active
                   /\ _idle_endpoints self' = idle
                   /\ List.filter is_resize new = [])
                  \/ exists e,
                      (e ∉ _pending_endpoints self)
                      /\ _active_endpoints self' = active ∖ {[e]}
                      /\ _idle_endpoints self' = {[e]} ∪ idle
                      /\ List.filter is_resize new = [log_contracting e]))
          \/ (~ expand /\ ~ contract
              /\ _active_endpoints self' = active
              /\ _idle_endpoints self' = idle
              /\ List.filter is_resize new = [])).
Proof.
  intros avg load active idle expand contract self'.
  split; [| split].
  - intros Hsize. subst load. unfold aperture_load. fold active.
    destruct (decide (size active = 0)); [reflexivity | contradiction].
  - intros Hsize. subst load. unfold aperture_load. fold active.
    destruct (decide (size active = 0)); [contradiction | reflexivity].
  - subst self'. unfold _AdjustAperture.
    subst avg.
    destruct (MonoClock.Sample (_time self) now) as [clock ts]. cbn [snd] in *.
    destruct (Ema.Update (_ema self) ts _) as [ema avg]. cbn [snd] in *.
    cbn zeta.
    set (self1 := set_load _ ema clock self).
    change (aperture_load avg self1) with load.
    change (_active_endpoints self1) with active.
    set (pre := if decide (size active = 0) then []
                else [varz_load_average load]).
    set (self2 := if decide (size active = 0) then self1 else _).
    assert (Hout2 : _out self2 = _out self ++ pre).
    { subst self2 pre. destruct (decide (size active = 0)); simpl;
        [rewrite app_nil_r |]; reflexivity. }
    assert (Hsets : _active_endpoints self2 = active
                    /\ _idle_endpoints self2 = idle
                    /\ _pending_endpoints self2 = _pending_endpoints self
                    /\ _max_load self2 = _max_load self
                    /\ _min_load self2 = _min_load self
                    /\ _min_size self2 = _min_size self).
    { subst self2. destruct (decide (size active = 0)); repeat split. }
    destruct Hsets as (Ha2 & Hi2 & Hp2 & Hmax2 & Hmin2 & Hsz2).
    assert (Hpre : List.filter is_load_average pre = pre
                   /\ List.filter is_resize pre = []).
    { subst pre. destruct (decide (size active = 0)); split; reflexivity. }
    destruct Hpre as [Hpre1 Hpre2].
    pose proof (expand_decision load self2) as Hexp.
    pose proof (contract_decision load self2) as Hcon.
    rewrite Ha2 in Hcon.
    destruct (float_ge load (_max_load self2)
              && any (elements (_idle_endpoints self2))) eqn:Hb1;
      rewrite Hmax2, Hi2 in Hexp; fold expand in Hexp.
    + destruct (proj1 Hexp eq_refl) as [Hge Hidle].
      rewrite <- Hi2 in Hidle.
      destruct (TryExpandAperture_out pick self2 Hidle)
        as (e & He & Hact & Hidl & Hout).
      rewrite Hi2 in He. rewrite Ha2 in Hact. rewrite Hi2 in Hidl.
      eexists. split; [rewrite Hout, Hout2, <- app_assoc; reflexivity |].
      unfold resizes. rewrite !List.filter_app, Hpre1, Hpre2. simpl.
      split; [lia |]. split; [apply app_nil_r |].
      left. split; [apply Hexp; reflexivity |].
      exists e. repeat split; assumption.
    + assert (Hnexp : ~ expand).
      { intros Hx. apply Hexp in Hx. discriminate. }
      destruct (float_le load (_min_load self2)
                && bool_decide (_min_size self2 < Z.of_nat (size active))%Z)
        eqn:Hb2;
        rewrite Hmin2, Hsz2 in Hcon; fold contract in Hcon.
      * pose proof (proj1 Hcon eq_refl) as Hc.
        destruct (ContractAperture_out self2)
          as [Hsame | (e & He & Hact & Hidl & Hout)].
        -- rewrite Hsame. exists pre. split; [exact Hout2 |].
           unfold resizes. rewrite Hpre1, Hpre2. simpl.
           split; [lia |]. split; [reflexivity |].
           right. left. split; [exact Hnexp |]. split; [exact Hc |].
           left. repeat split; assumption.
        -- rewrite Hp2 in He. rewrite Ha2 in Hact. rewrite Hi2 in Hidl.
           eexists. split; [rewrite Hout, Hout2, <- app_assoc; reflexivity |].
           unfold resizes. rewrite !List.filter_app, Hpre1, Hpre2. simpl.
           split; [lia |]. split; [apply app_nil_r |].
           right. left. split; [exact Hnexp |]. split; [exact Hc |].
           right. exists e. repeat split; assumption.
      * assert (Hncon : ~ contract).
        { intros Hx. apply Hcon in Hx. discriminate. }
        exists pre. split; [exact Hout2 |].
        unfold resizes. rewrite Hpre1, Hpre2. simpl.
        split; [lia |]. split; [reflexivity |].
        right. right. split; [exact Hnexp |]. split; [exact Hncon |].
        repeat split; assumption.
Qed.

(** ** ApertureBalancerSink: a node marked down, and the jitter cycle *)

(** [_OnNodeDown] discards nothing: the aperture only grows, and the handle
    it returns is the one of the expansion. *)
Lemma OnNodeDown_keeps_active (node : Node Endpoint) (pick : nat) self :
  (_active_endpoints self
   ⊆ _active_endpoints (fst (_OnNodeDown node pick self)))
  /\ (endpoint node ∈ _active_endpoints self ->
      _OnNodeDown node pick self
      = (fst (_TryExpandAperture pick self),
         fst (snd (_TryExpandAperture pick self)))).
Proof.
  unfold _OnNodeDown.
  destruct (decide (endpoint node ∈ _active_endpoints self)) as [Hin | Hout].
  - destruct (TryExpandAperture_cases pick self) as [[_ Heq] | (e & _ & Heq)];
      rewrite Heq; simpl; split; try reflexivity; set_solver.
  - split; [reflexivity | contradiction].
Qed.

(** When [ar.wait()] comes back, with or without [ar.exception], the
    endpoint of the cycle leaves the pending set. *)
Lemma Jitter_resume_discards e (outcome : WaitOutcome) self :
  outcome ≠ WaitRaised ->
  (e ∉ _pending_endpoints (fst (Jitter_resume e outcome self)))
  /\ snd (Jitter_resume e outcome self) = false.
Proof.
  intros Hreturns. destruct outcome; simpl; [| | contradiction];
    (split; [set_solver | reflexivity]).
Qed.

(** When [ar.wait()] raises, the [finally] clause schedules the next cycle
    and the endpoint of the cycle is left in the pending set. *)
Lemma Jitter_wait_raises (pick : nat) (delay : Z) self :
  _idle_endpoints self ≠ ∅ ->
  exists e,
    e ∈ _idle_endpoints self
    /\ _pending_endpoints (fst (_Jitter pick WaitRaised delay self))
       = {[e]} ∪ _pending_endpoints self
    /\ snd (_Jitter pick WaitRaised delay self) = true
    /\ last (_out (fst (_Jitter pick WaitRaised delay self)))
       = Some (timer_schedule delay).
Proof.
  intros Hidle. unfold _Jitter, Jitter_expand.
  destruct (TryExpandAperture_cases pick self) as [[He _] | (e & He & Heq)];
    [contradiction |].
  exists e. rewrite Heq. simpl. repeat split; [exact He |].
  rewrite <- !app_assoc. simpl.
  rewrite !last_app. reflexivity.
Qed.

(** A jitter cycle is the firing of the timer followed, when the aperture
    expanded, by the end of the wait. *)
Lemma Jitter_in_two_steps (pick : nat) (outcome : WaitOutcome) (delay : Z)
    (s : System Endpoint) :
  waiting s = None ->
  run (EvJitterFire pick delay
       :: match snd (snd (Jitter_expand pick (sink s))) with
          | Some _ => [EvJitterWake outcome delay]
          | None => []
          end) s
  = Some {| sink := fst (_Jitter pick outcome delay (sink s));
            waiting := None |}.
Proof.
  intros Hw. unfold _Jitter. cbn [run step]. rewrite Hw.
  destruct (Jitter_expand pick (sink s)) as [self [ar [e |]]]; reflexivity.
Qed.

End SinkProperties.

(** ** The scenarios, run on the heap balancer of the specification *)

Section Scenarios.

Local Open Scope string_scope.

(** C1.  With [a] and [b] active and [c] idle, [_OnNodeDown] for the node
    of [a] returns the handle of the expansion that brings [c] in, and does
    not discard [a]: the aperture holds [a], [b] and [c]. *)
Theorem OnNodeDown_leaves_endpoint_active :
  let self := fst (_OnNodeDown Scenario.node_a 0 Scenario.start) in
  _active_endpoints Scenario.start = {["a"; "b"]}
  /\ _idle_endpoints Scenario.start = {["c"]}
  /\ _active_endpoints self = {["a"; "b"; "c"]}
  /\ _idle_endpoints self = ∅
  /\ size (_active_endpoints self) = 3
  /\ snd (_OnNodeDown Scenario.node_a 0 Scenario.start) = AddSinkResult "c".
Proof. vm_compute. repeat split. Qed.

(** C2.  With [a] and [b] active and [c] idle, a jitter cycle in which
    [ar.wait()] raises ends by the exception with the next cycle scheduled
    and [c] still pending; when the wait comes back, with [ar.exception]
    set or not, the cycle ends with nothing pending. *)
Theorem Jitter_wait_raises_leaves_pending :
  let raised := _Jitter 0 WaitRaised 180 Scenario.start in
  snd raised = true
  /\ _pending_endpoints (fst raised) = {["c"]}
  /\ last (_out (fst raised)) = Some (timer_schedule 180)
  /\ _pending_endpoints (fst (_Jitter 0 WaitFailed 180 Scenario.start)) = ∅
  /\ _pending_endpoints (fst (_Jitter 0 WaitDone 180 Scenario.start)) = ∅.
Proof. vm_compute. repeat split. Qed.

Lemma start_nothing_pending :
  _pending_endpoints Scenario.start ⊆ _active_endpoints Scenario.start.
Proof.
  replace (_pending_endpoints Scenario.start) with (∅ : gset string)
    by (vm_compute; reflexivity).
  intros x Hx. exfalso. revert Hx. apply not_elem_of_empty.
Qed.

Lemma after_removal_pending :
  "c" ∈ _pending_endpoints (sink Scenario.after_removal).
Proof.
  apply (bool_decide_eq_true_1 _). vm_compute. reflexivity.
Qed.

(** C3, as the specification words it, fails: with [a] and [b] active and
    [c] idle, the timer fires, the cycle brings [c] in and waits; then
    [RemoveSink] for [c] takes it out of the aperture and leaves it
    pending. *)
Lemma RemoveSink_of_pending_endpoint :
  _pending_endpoints Scenario.start ⊆ _active_endpoints Scenario.start
  /\ exists s : System string,
      run [EvJitterFire 0 180; EvRemoveSink "c" 0] Scenario.start_system
      = Some s
      /\ waiting s = Some "c"
      /\ ~ (_pending_endpoints (sink s) ⊆ _active_endpoints (sink s)).
Proof.
  split; [exact start_nothing_pending |].
  exists Scenario.after_removal. split; [vm_compute; reflexivity |].
  split; [reflexivity |].
  intros Hsub. specialize (Hsub "c" after_removal_pending).
  assert (Ha : bool_decide
                 ("c" ∈ _active_endpoints (sink Scenario.after_removal))
               = false) by (vm_compute; reflexivity).
  apply bool_decide_eq_false in Ha. exact (Ha Hsub).
Qed.

Lemma pending_active_unless_removed_witness :
  "c" ∈ _active_endpoints (sink Scenario.after_removal)
  \/ exists pick,
      EvRemoveSink "c" pick ∈ [EvJitterFire 0 180; EvRemoveSink "c" 0].
Proof.
  apply (proj2 pending_active_unless_removed
           [EvJitterFire 0 180; EvRemoveSink "c" 0]
           Scenario.start_system Scenario.after_removal).
  - vm_compute. reflexivity.
  - exact start_nothing_pending.
  - exact after_removal_pending.
Defined.

(** C4.  A sink built with [smoothing_window = 10] has an EMA of window 5:
    [__init__] builds [Ema(5)] and does not read the option. *)
Theorem init_ignores_smoothing_window :
  let self : ApertureBalancerSink string :=
    __init__ Scenario.window_10 0 120 in
  smoothing_window Scenario.window_10 = 10%R
  /\ Ema._window (_ema self) = 5%R
  /\ Ema._window (_ema self) <> smoothing_window Scenario.window_10.
Proof.
  cbv zeta. rewrite init_window.
  unfold Scenario.window_10. cbn [smoothing_window].
  split; [reflexivity |]. split; [reflexivity | lra].
Qed.

(** C5, as the specification words it, fails: on a new sink, a [Put] with
    no [Get] before it makes the counter [-1], and [-1] is the sample that
    the EMA takes and holds. *)
Lemma Put_without_Get_feeds_negative_total :
  let self := _OnPut 1 0 Scenario.fresh in
  _total self = (-1)%Z
  /\ Ema._ema (_ema self) = (-1)%R
  /\ (Ema._ema (_ema self) < 0)%R.
Proof.
  cbv zeta. unfold _OnPut.
  destruct (AdjustAperture_load (-1) 1 0 Scenario.fresh) as (Ht & _ & He).
  rewrite Ht, He.
  change (_total Scenario.fresh) with 0%Z.
  change (_ema Scenario.fresh) with (Ema.init 5).
  change (_time Scenario.fresh) with (MonoClock.init 0).
  rewrite Sample_forward by (simpl; lra). cbn [snd].
  rewrite Update_first by reflexivity. cbn [fst Ema._ema].
  change (0 + -1)%Z with (-1)%Z.
  split; [reflexivity |]. split; [reflexivity | lra].
Qed.

Lemma AdjustAperture_feeds_total_unclamped_witness :
  _total (_OnPut 2 0 (_OnGet 1 0 Scenario.start)) = (0 + (1 + (-1 + 0)))%Z.
Proof.
  apply (proj1 (proj2 AdjustAperture_feeds_total_unclamped)
           [EvGet 1 0; EvPut 2 0] Scenario.start_system
           (with_sink (_OnPut 2 0 (_OnGet 1 0 Scenario.start))
              (with_sink (_OnGet 1 0 Scenario.start) Scenario.start_system))).
  reflexivity.
Defined.

End Scenarios.

(** * Further properties *)

(** ** MonoClock and Ema *)

Section ClockAndEmaLaws.

Local Open Scope R_scope.

Lemma Sample_is_max (c : MonoClock.t) (now : R) :
  MonoClock.Sample c now
  = (MonoClock.init (Rmax (MonoClock._last c) now), Rmax (MonoClock._last c) now).
Proof.
  destruct (Rlt_le_dec (MonoClock._last c) now) as [Hlt | Hle].
  - rewrite (Sample_forward _ _ Hlt), Rmax_right by lra. reflexivity.
  - rewrite (Sample_backward _ _ Hle), Rmax_left by lra.
    destruct c. reflexivity.
Qed.

(** X1.  [Sample] returns the larger of the reading and what the clock
    held, so the samples of a clock are the running maximum of the reading
    of its constructor and the readings so far; a reading read twice gives
    the same sample twice. *)
Theorem MonoClock_samples_running_max :
  (forall (c : MonoClock.t) (now : R),
      snd (MonoClock.Sample c now) = Rmax (MonoClock._last c) now)
  /\ (forall (c : MonoClock.t) (readings : list R),
         MonoClock.samples c readings
         = running_max (MonoClock._last c) readings)
  /\ (forall (c : MonoClock.t) (now : R),
         MonoClock.Sample (fst (MonoClock.Sample c now)) now
         = MonoClock.Sample c now).
Proof.
  split; [| split].
  - intros c now. rewrite Sample_is_max. reflexivity.
  - intros c readings. revert c.
    induction readings as [| now rest IH]; intros c; [reflexivity |].
    cbn [MonoClock.samples running_max]. rewrite Sample_is_max.
    rewrite IH. reflexivity.
  - intros c now. rewrite !Sample_is_max. cbn [fst MonoClock.init MonoClock._last].
    rewrite Rmax_left by apply Rmax_r. reflexivity.
Qed.

End ClockAndEmaLaws.

(** ** ApertureBalancerSink: expansion and contraction *)

Section ResizeLaws.

Context {Endpoint : Type} `{Countable Endpoint} {base : HeapBalancerSink Endpoint}.

Implicit Types (self : ApertureBalancerSink Endpoint) (e : Endpoint).

#[local] Set Warnings "-clear-no-such-hyp".

(** [_AdjustAperture] ends as [_TryExpandAperture], as [_ContractAperture]
    or with neither, on a sink that differs from the one before in the load
    counter, the EMA, the clock and the [load_average] written. *)
Lemma AdjustAperture_cases (amount : Z) (now : R) (pick : nat) self :
  exists self2 pre,
    same_aperture self self2
    /\ _out self2 = _out self ++ pre
    /\ Forall (fun x => is_load_average x = true) pre
    /\ (_AdjustAperture amount now pick self = self2
        \/ (_idle_endpoints self ≠ ∅
            /\ _AdjustAperture amount now pick self
               = fst (_TryExpandAperture pick self2))
        \/ _AdjustAperture amount now pick self = _ContractAperture self2).
Proof.
  unfold _AdjustAperture.
  destruct (MonoClock.Sample (_time self) now) as [clock ts].
  destruct (Ema.Update (_ema self) ts _) as [ema avg]. cbn zeta.
  set (self1 := set_load _ ema clock self).
  set (load := aperture_load avg self1).
  set (self2 := if decide (size (_active_endpoints self1) = 0) then self1 else _).
  exists self2,
    (if decide (size (_active_endpoints self1) = 0) then []
     else [varz_load_average load]).
  assert (Hsame : same_aperture self self2).
  { subst self2. destruct (decide _); repeat split. }
  split; [exact Hsame |].
  split; [subst self2; destruct (decide _); simpl;
          [rewrite app_nil_r |]; reflexivity |].
  split; [destruct (decide _); repeat constructor |].
  destruct (float_ge load (_max_load self2)
            && any (elements (_idle_endpoints self2))) eqn:Hb1.
  - right. left. split; [| reflexivity].
    apply andb_true_iff in Hb1 as [_ Hany].
    apply any_elements in Hany. destruct Hsame as (_ & Hi & _).
    rewrite <- Hi. exact Hany.
  - destruct (float_le load (_min_load self2)
              && bool_decide
                   (_min_size self2
                    < Z.of_nat (size (_active_endpoints self1)))%Z);
      [right; right | left]; reflexivity.
Qed.

Lemma TryExpandAperture_sets (pick : nat) self :
  _active_endpoints self ⊆ _active_endpoints (fst (_TryExpandAperture pick self))
  /\ _active_endpoints (fst (_TryExpandAperture pick self))
     ∪ _idle_endpoints (fst (_TryExpandAperture pick self))
     = _active_endpoints self ∪ _idle_endpoints self
  /\ (_active_endpoints self ∩ _idle_endpoints self = ∅ ->
      _active_endpoints (fst (_TryExpandAperture pick self))
      ∩ _idle_endpoints (fst (_TryExpandAperture pick self)) = ∅).
Proof.
  destruct (TryExpandAperture_cases pick self) as [[_ Heq] | (e & He & Heq)];
    rewrite Heq; simpl.
  - repeat split; [set_solver | tauto].
  - split; [set_solver |]. split; [| set_solver].
    apply set_eq. intros x. destruct (decide (x = e)); set_solver.
Qed.

(** X5.  [_TryExpandAperture] with no idle endpoint returns
    [(AsyncResult.Complete(), None)] and leaves the sets and the heap as
    they are; with an idle endpoint it moves one of them into the aperture,
    adds it to the heap and returns its handle and the endpoint; and every
    idle endpoint is one that [random.choice] can draw. *)
Theorem TryExpandAperture_moves_one_idle (pick : nat) self :
  (_idle_endpoints self = ∅ ->
   snd (_TryExpandAperture pick self) = (Complete, None)
   /\ same_aperture self (fst (_TryExpandAperture pick self)))
  /\ (_idle_endpoints self ≠ ∅ ->
      exists e,
        e ∈ _idle_endpoints self
        /\ snd (_TryExpandAperture pick self) = (AddSinkResult e, Some e)
        /\ _active_endpoints (fst (_TryExpandAperture pick self))
           = {[e]} ∪ _active_endpoints self
        /\ _idle_endpoints (fst (_TryExpandAperture pick self))
           = _idle_endpoints self ∖ {[e]}
        /\ _heap (fst (_TryExpandAperture pick self))
           = super_AddSink e (_heap self))
  /\ (forall e,
         e ∈ _idle_endpoints self ->
         exists pick', snd (snd (_TryExpandAperture pick' self)) = Some e).
Proof.
  split; [| split].
  - intros Hidle.
    destruct (TryExpandAperture_cases pick self) as [[_ Heq] | (e & He & _)];
      [| set_solver].
    rewrite Heq. split; [reflexivity | repeat split].
  - intros Hidle.
    destruct (TryExpandAperture_cases pick self) as [[He _] | (e & He & Heq)];
      [contradiction |].
    exists e. rewrite Heq. repeat split. exact He.
  - intros e He. unfold _TryExpandAperture.
    apply elem_of_elements in He.
    destruct (elements (_idle_endpoints self)) as [| d rest];
      [apply elem_of_nil in He; contradiction |].
    destruct (random_choice_any d rest e He) as [pick' Hpick].
    exists pick'. simpl. rewrite Hpick. reflexivity.
Qed.

Lemma scan_first (P : gset Endpoint) (nodes : list (Node Endpoint)) :
  forall (before : list Endpoint) e (after : list Endpoint),
    endpoint <$> nodes = before ++ e :: after ->
    Forall (fun x => x ∈ P) before ->
    e ∉ P ->
    endpoint <$> List.find (λ n, bool_decide (endpoint n ∉ P)) nodes = Some e.
Proof.
  induction nodes as [| n rest IH]; intros before e after Heq Hbefore He.
  - destruct before; discriminate.
  - destruct before as [| b before]; simpl in Heq; injection Heq as Hn Hrest.
    + simpl. rewrite bool_decide_eq_true_2 by (rewrite Hn; exact He).
      simpl. rewrite Hn. reflexivity.
    + apply Forall_cons in Hbefore as [Hb Hbefore]. simpl.
      rewrite bool_decide_eq_false_2 by (rewrite Hn; intros Hx; exact (Hx Hb)).
      apply (IH before e after Hrest Hbefore He).
Qed.

Lemma scan_none (P : gset Endpoint) (nodes : list (Node Endpoint)) :
  Forall (fun x => x ∈ P) (endpoint <$> nodes) ->
  List.find (λ n, bool_decide (endpoint n ∉ P)) nodes = None.
Proof.
  induction nodes as [| n rest IH]; intros Hall; [reflexivity |].
  simpl in Hall. apply Forall_cons in Hall as [Hn Hrest]. simpl.
  rewrite bool_decide_eq_false_2 by (intros Hx; exact (Hx Hn)).
  apply IH, Hrest.
Qed.

(** X6.  [_ContractAperture] does nothing when the aperture is not larger
    than [min_size], and nothing when every node of the heap is pending.
    Otherwise it takes the first node of the heap, in array order, that is
    not pending: its endpoint moves from the aperture to the idle set and
    leaves the heap, and the pending set is as before. *)
Theorem ContractAperture_first_not_pending self :
  ((Z.of_nat (size (_active_endpoints self)) <= _min_size self)%Z ->
   _ContractAperture self = self)
  /\ (Forall (fun x => x ∈ _pending_endpoints self) (heap_endpoints self) ->
      _ContractAperture self = self)
  /\ (forall (before : list Endpoint) e (after : list Endpoint),
         (_min_size self < Z.of_nat (size (_active_endpoints self)))%Z ->
         heap_endpoints self = before ++ e :: after ->
         Forall (fun x => x ∈ _pending_endpoints self) before ->
         e ∉ _pending_endpoints self ->
         _active_endpoints (_ContractAperture self)
         = _active_endpoints self ∖ {[e]}
         /\ _idle_endpoints (_ContractAperture self)
            = {[e]} ∪ _idle_endpoints self
         /\ _heap (_ContractAperture self) = super_RemoveSink e (_heap self)
         /\ _pending_endpoints (_ContractAperture self)
            = _pending_endpoints self).
Proof.
  split; [| split].
  - intros Hsize. unfold _ContractAperture.
    destruct (decide _) as [Hlt | _]; [lia | reflexivity].
  - intros Hall. unfold _ContractAperture, least_loaded_endpoint.
    rewrite (scan_none _ _ Hall). simpl. destruct (decide _); reflexivity.
  - intros before e after Hsize Hheap Hbefore He.
    unfold _ContractAperture, least_loaded_endpoint.
    destruct (decide _) as [_ | Hge]; [| contradiction].
    rewrite (scan_first _ _ before e after Hheap Hbefore He).
    repeat split.
Qed.

End ResizeLaws.

(** ** ApertureBalancerSink: the sets over the calls *)

Section MembershipLaws.

Context {Endpoint : Type} `{Countable Endpoint} {base : HeapBalancerSink Endpoint}.

Implicit Types (self : ApertureBalancerSink Endpoint) (e : Endpoint).

#[local] Set Warnings "-clear-no-such-hyp".

Lemma size_remove_one (X : gset Endpoint) e : size X <= S (size (X ∖ {[e]})).
Proof.
  assert (Hsub : X ⊆ (X ∖ {[e]}) ∪ {[e]}).
  { intros x Hx. destruct (decide (x = e)); set_solver. }
  apply subseteq_size in Hsub.
  rewrite size_union in Hsub by set_solver.
  rewrite size_singleton in Hsub. lia.
Qed.

Lemma ContractAperture_sets self :
  (_min_size self <= Z.of_nat (size (_active_endpoints self)) ->
   _min_size self <= Z.of_nat (size (_active_endpoints (_ContractAperture self))))%Z
  /\ (_active_endpoints self ∩ _idle_endpoints self = ∅ ->
      _active_endpoints (_ContractAperture self)
      ∩ _idle_endpoints (_ContractAperture self) = ∅)
  /\ ((forall x, x ∈ heap_endpoints self -> x ∈ _active_endpoints self) ->
      _active_endpoints (_ContractAperture self)
      ∪ _idle_endpoints (_ContractAperture self)
      = _active_endpoints self ∪ _idle_endpoints self).
Proof.
  destruct (ContractAperture_cases self)
    as [Heq | (e & He & Hsize & Hscan & Heq)]; rewrite Heq;
    [repeat split; tauto |].
  simpl. split; [| split].
  - intros _. pose proof (size_remove_one (_active_endpoints self) e). lia.
  - intros Hdis. apply set_eq. intros x. destruct (decide (x = e)); set_solver.
  - intros Hheap. assert (Hin : e ∈ _active_endpoints self).
    { apply Hheap. unfold heap_endpoints.
      unfold least_loaded_endpoint in Hscan.
      destruct (List.find _ _) as [n |] eqn:Hfind; [| discriminate].
      simpl in Hscan. injection Hscan as <-.
      apply find_some in Hfind as [Hn _].
      apply list_elem_of_fmap. exists n. split; [reflexivity |].
      apply list_elem_of_In. exact Hn. }
    apply set_eq. intros x. destruct (decide (x = e)); set_solver.
Qed.

Lemma AddSink_sets e self :
  _active_endpoints self ⊆ _active_endpoints (_AddSink e self)
  /\ (e ∉ _active_endpoints self ∪ _idle_endpoints self ->
      _active_endpoints self ∩ _idle_endpoints self = ∅ ->
      _active_endpoints (_AddSink e self) ∩ _idle_endpoints (_AddSink e self)
      = ∅).
Proof.
  unfold _AddSink. destruct (decide _); simpl; split; set_solver.
Qed.

(** What [_RemoveSink] does to the sets, by what [_TryExpandAperture] does
    once the endpoint is out of the aperture. *)
Lemma RemoveSink_sets e (pick : nat) self :
  _active_endpoints self ∩ _idle_endpoints self = ∅ ->
  let self' := _RemoveSink e pick self in
  (e ∉ _active_endpoints self')
  /\ (e ∉ _idle_endpoints self')
  /\ _active_endpoints self' ∩ _idle_endpoints self' = ∅
  /\ _active_endpoints self' ∪ _idle_endpoints self'
     = (_active_endpoints self ∪ _idle_endpoints self) ∖ {[e]}
  /\ (e ∈ _active_endpoints self -> _idle_endpoints self ≠ ∅ ->
      size (_active_endpoints self') = size (_active_endpoints self))
  /\ (e ∉ _active_endpoints self ->
      _active_endpoints self' = _active_endpoints self).
Proof.
  intros Hdis. unfold _RemoveSink. cbn zeta.
  set (self0 := set_heap (super_RemoveSink e (_heap self)) self).
  change (_active_endpoints self0) with (_active_endpoints self).
  destruct (decide (e ∈ _active_endpoints self)) as [Hin | Hout].
  - set (self1 := set_active (_active_endpoints self ∖ {[e]}) self0).
    destruct (TryExpandAperture_cases pick self1)
      as [[Hi Heq] | (e2 & He2 & Heq)]; rewrite Heq; simpl in *.
    + rewrite Hi. rewrite decide_False by set_solver. simpl.
      repeat split; try set_solver.
    + assert (Hne : e2 ≠ e) by set_solver.
      rewrite decide_False by set_solver. simpl.
      split; [set_solver |]. split; [set_solver |].
      split; [apply set_eq; intros x; destruct (decide (x = e2)); set_solver |].
      split; [apply set_eq; intros x; destruct (decide (x = e2));
              destruct (decide (x = e)); set_solver |].
      split; [| set_solver]. intros _ _.
      rewrite size_union by set_solver. rewrite size_singleton.
      pose proof (size_remove_one (_active_endpoints self) e) as Hle.
      assert (Hlt : size (_active_endpoints self ∖ {[e]})
                    < size (_active_endpoints self)).
      { apply subset_size. set_solver. }
      lia.
  - destruct (decide (e ∈ _idle_endpoints self0)) as [Hidle | Hnidle];
      simpl in *.
    + split; [exact Hout |]. split; [set_solver |]. split; [set_solver |].
      split; [| split; [contradiction | reflexivity]].
      apply set_eq. intros x. destruct (decide (x = e)); set_solver.
    + split; [exact Hout |]. split; [exact Hnidle |]. split; [exact Hdis |].
      split; [set_solver | split; [contradiction | reflexivity]].
Qed.

Lemma AdjustAperture_sets (amount : Z) (now : R) (pick : nat) self :
  let self' := _AdjustAperture amount now pick self in
  _min_size self' = _min_size self
  /\ _pending_endpoints self' = _pending_endpoints self
  /\ (_min_size self <= Z.of_nat (size (_active_endpoints self)) ->
      _min_size self <= Z.of_nat (size (_active_endpoints self')))%Z
  /\ (_active_endpoints self ∩ _idle_endpoints self = ∅ ->
      _active_endpoints self' ∩ _idle_endpoints self' = ∅)
  /\ ((forall x, x ∈ heap_endpoints self -> x ∈ _active_endpoints self) ->
      _active_endpoints self' ∪ _idle_endpoints self'
      = _active_endpoints self ∪ _idle_endpoints self).
Proof.
  destruct (AdjustAperture_cases amount now pick self)
    as (self2 & pre & (Ha & Hi & Hp & Hh & Hm & _) & _ & _ & Hcases).
  cbn zeta.
  destruct Hcases as [Heq | [[_ Heq] | Heq]]; rewrite Heq.
  - rewrite Ha, Hi, Hp, Hm. repeat split; tauto.
  - destruct (TryExpandAperture_same_load pick self2)
      as (_ & _ & _ & Hm' & _ & _ & Hp').
    destruct (TryExpandAperture_sets pick self2) as (Hsub & Hknown & Hdis).
    rewrite Hm', Hp', Hm, Hp, Hknown. rewrite Ha, Hi in Hdis. rewrite Ha in Hsub.
    repeat split; try tauto; [| rewrite Ha, Hi; reflexivity].
    intros Hfloor. apply subseteq_size in Hsub. lia.
  - destruct (ContractAperture_same_load self2)
      as (_ & _ & _ & Hm' & _ & _ & Hp').
    destruct (ContractAperture_sets self2) as (Hfloor & Hdis & Hknown).
    rewrite Hm', Hp', Hm, Hp. rewrite Hm, Ha in Hfloor. rewrite Ha, Hi in Hdis.
    unfold heap_endpoints in *. rewrite Ha, Hi, Hh in Hknown.
    repeat split; assumption.
Qed.

Lemma Jitter_expand_sets (pick : nat) self :
  let self' := fst (Jitter_expand pick self) in
  _min_size self' = _min_size self
  /\ _active_endpoints self ⊆ _active_endpoints self'
  /\ (_active_endpoints self ∩ _idle_endpoints self = ∅ ->
      _active_endpoints self' ∩ _idle_endpoints self' = ∅).
Proof.
  unfold Jitter_expand.
  pose proof (TryExpandAperture_same_load pick self)
    as (_ & _ & _ & Hm & _).
  pose proof (TryExpandAperture_sets pick self) as (Hsub & _ & Hdis).
  destruct (_TryExpandAperture pick self) as [self1 [ar [e |]]];
    simpl in *; repeat split; assumption.
Qed.

Lemma Jitter_resume_sets e (outcome : WaitOutcome) self :
  let self' := fst (Jitter_resume e outcome self) in
  _min_size self' = _min_size self
  /\ (_min_size self <= Z.of_nat (size (_active_endpoints self)) ->
      _min_size self <= Z.of_nat (size (_active_endpoints self')))%Z
  /\ (_active_endpoints self ∩ _idle_endpoints self = ∅ ->
      _active_endpoints self' ∩ _idle_endpoints self' = ∅).
Proof.
  destruct outcome; simpl; try (repeat split; tauto).
  destruct (ContractAperture_same_load self) as (_ & _ & _ & Hm & _).
  destruct (ContractAperture_sets self) as (Hfloor & Hdis & _).
  repeat split; assumption.
Qed.

(** X7.  No call other than [RemoveSink] takes the aperture below
    [min_size]: an aperture of at least [min_size] endpoints has at least
    [min_size] endpoints after [AddSink], [OnNodeDown], [Get], [Put], the
    start of a jitter cycle and its end. *)
Theorem aperture_floor_kept (ev : Event Endpoint) (s s' : System Endpoint) :
  step ev s = Some s' ->
  (forall e pick, ev ≠ EvRemoveSink e pick) ->
  (_min_size (sink s) <= Z.of_nat (size (_active_endpoints (sink s))))%Z ->
  (_min_size (sink s') <= Z.of_nat (size (_active_endpoints (sink s'))))%Z.
Proof.
  intros Hstep Hev Hfloor.
  destruct ev; simpl in Hstep.
  - injection Hstep as <-. unfold with_sink. cbn [sink].
    destruct (AddSink_same_load e (sink s)) as (_ & _ & _ & Hm & _).
    destruct (AddSink_sets e (sink s)) as [Hsub _].
    apply subseteq_size in Hsub. rewrite Hm. lia.
  - exfalso. exact (Hev e pick eq_refl).
  - injection Hstep as <-. unfold with_sink. cbn [sink].
    destruct (OnNodeDown_same_load node pick (sink s)) as (_ & _ & _ & Hm & _).
    destruct (OnNodeDown_keeps_active node pick (sink s)) as [Hsub _].
    apply subseteq_size in Hsub. rewrite Hm. lia.
  - injection Hstep as <-. unfold with_sink. cbn [sink].
    destruct (AdjustAperture_sets 1 now pick (sink s)) as (Hm & _ & Hf & _).
    unfold _OnGet. rewrite Hm. exact (Hf Hfloor).
  - injection Hstep as <-. unfold with_sink. cbn [sink].
    destruct (AdjustAperture_sets (-1) now pick (sink s)) as (Hm & _ & Hf & _).
    unfold _OnPut. rewrite Hm. exact (Hf Hfloor).
  - injection Hstep as <-. exact Hfloor.
  - destruct (waiting s); [discriminate |].
    destruct (Jitter_expand_sets pick (sink s)) as (Hm & Hsub & _).
    apply subseteq_size in Hsub.
    destruct (Jitter_expand pick (sink s)) as [self [ar [e |]]];
      injection Hstep as <-; simpl in *; rewrite Hm; lia.
  - destruct (waiting s) as [e |]; [| discriminate].
    injection Hstep as <-. cbn [sink].
    unfold Jitter_finally, _ScheduleNextJitter, emit.
    cbn [fst _min_size _active_endpoints].
    destruct (Jitter_resume_sets e outcome (sink s)) as (Hm & Hf & _).
    rewrite Hm. exact (Hf Hfloor).
Qed.

Lemma step_disjoint (ev : Event Endpoint) (s s' : System Endpoint) :
  step ev s = Some s' ->
  adds_are_new [ev] s ->
  _active_endpoints (sink s) ∩ _idle_endpoints (sink s) = ∅ ->
  _active_endpoints (sink s') ∩ _idle_endpoints (sink s') = ∅.
Proof.
  intros Hstep [Hnew _] Hdis.
  destruct ev; simpl in Hstep.
  - injection Hstep as <-. unfold with_sink. cbn [sink].
    apply (AddSink_sets e (sink s)); assumption.
  - injection Hstep as <-. unfold with_sink. cbn [sink].
    apply (RemoveSink_sets e pick (sink s) Hdis).
  - injection Hstep as <-. unfold with_sink. cbn [sink]. unfold _OnNodeDown.
    destruct (decide _); [| exact Hdis].
    pose proof (TryExpandAperture_sets pick (sink s)) as (_ & _ & Hd).
    destruct (_TryExpandAperture pick (sink s)) as [self [ar oe]].
    exact (Hd Hdis).
  - injection Hstep as <-. unfold with_sink. cbn [sink].
    apply (AdjustAperture_sets 1 now pick (sink s)), Hdis.
  - injection Hstep as <-. unfold with_sink. cbn [sink].
    apply (AdjustAperture_sets (-1) now pick (sink s)), Hdis.
  - injection Hstep as <-. exact Hdis.
  - destruct (waiting s); [discriminate |].
    destruct (Jitter_expand_sets pick (sink s)) as (_ & _ & Hd).
    destruct (Jitter_expand pick (sink s)) as [self [ar [e |]]];
      injection Hstep as <-; simpl in *; exact (Hd Hdis).
  - destruct (waiting s) as [e |]; [| discriminate].
    injection Hstep as <-. cbn [sink].
    unfold Jitter_finally, _ScheduleNextJitter, emit.
    cbn [fst _active_endpoints _idle_endpoints].
    apply (Jitter_resume_sets e outcome (sink s)), Hdis.
Qed.

(** X8.  The aperture and the idle set stay disjoint over every
    interleaving of calls in which [AddSink] is called only for endpoints
    that the sink does not hold at that time. *)
Theorem active_idle_disjoint (evs : list (Event Endpoint)) :
  forall s s' : System Endpoint,
    run evs s = Some s' ->
    adds_are_new evs s ->
    _active_endpoints (sink s) ∩ _idle_endpoints (sink s) = ∅ ->
    _active_endpoints (sink s') ∩ _idle_endpoints (sink s') = ∅.
Proof.
  induction evs as [| ev rest IH]; intros s s' Hrun Hnew Hdis.
  - injection Hrun as <-. exact Hdis.
  - cbn [run] in Hrun. cbn [adds_are_new] in Hnew.
    destruct (step ev s) as [s1 |] eqn:Hstep; [| discriminate].
    destruct Hnew as [Hev Hrest].
    apply (IH s1 s' Hrun Hrest).
    apply (step_disjoint ev s s1 Hstep); [| exact Hdis].
    cbn [adds_are_new]. rewrite Hstep. split; [exact Hev | exact I].
Qed.

(** X9.  On a sink whose aperture and idle set are disjoint, [_RemoveSink]
    takes the endpoint out of both sets and no other endpoint out of their
    union; when the endpoint was active and an endpoint was idle, the
    aperture is backfilled to the size it had; when it was not active, the
    aperture is as before. *)
Theorem RemoveSink_forgets_and_backfills e (pick : nat) self :
  _active_endpoints self ∩ _idle_endpoints self = ∅ ->
  let self' := _RemoveSink e pick self in
  (e ∉ _active_endpoints self')
  /\ (e ∉ _idle_endpoints self')
  /\ _active_endpoints self' ∪ _idle_endpoints self'
     = (_active_endpoints self ∪ _idle_endpoints self) ∖ {[e]}
  /\ (e ∈ _active_endpoints self -> _idle_endpoints self ≠ ∅ ->
      size (_active_endpoints self') = size (_active_endpoints self))
  /\ (e ∉ _active_endpoints self ->
      _active_endpoints self' = _active_endpoints self).
Proof.
  intros Hdis.
  destruct (RemoveSink_sets e pick self Hdis) as (H1 & H2 & _ & H4 & H5 & H6).
  cbn zeta. repeat split; assumption.
Qed.

(** X10.  [Get] and [Put] neither lose nor invent an endpoint: when the
    endpoints of the heap nodes are active, [_AdjustAperture] leaves the
    union of the aperture and the idle set as it is and, the two being
    disjoint, the sum of their sizes. *)
Theorem AdjustAperture_keeps_known_endpoints (amount : Z) (now : R)
    (pick : nat) self :
  (forall x, x ∈ heap_endpoints self -> x ∈ _active_endpoints self) ->
  let self' := _AdjustAperture amount now pick self in
  _active_endpoints self' ∪ _idle_endpoints self'
  = _active_endpoints self ∪ _idle_endpoints self
  /\ (_active_endpoints self ∩ _idle_endpoints self = ∅ ->
      size (_active_endpoints self') + size (_idle_endpoints self')
      = size (_active_endpoints self) + size (_idle_endpoints self)).
Proof.
  intros Hheap. cbn zeta.
  destruct (AdjustAperture_sets amount now pick self)
    as (_ & _ & _ & Hdis & Hknown).
  specialize (Hknown Hheap). split; [exact Hknown |].
  intros Hd. specialize (Hdis Hd).
  rewrite <- !size_union by set_solver. rewrite Hknown. reflexivity.
Qed.

(** X11.  An empty aperture is refilled by the next request: with no active
    endpoint and an idle one, [_AdjustAperture] moves one idle endpoint
    into the aperture, whatever the amount, the time and the load band. *)
Theorem AdjustAperture_refills_empty_aperture (amount : Z) (now : R)
    (pick : nat) self :
  _active_endpoints self = ∅ ->
  _idle_endpoints self ≠ ∅ ->
  let self' := _AdjustAperture amount now pick self in
  exists e,
    e ∈ _idle_endpoints self
    /\ _active_endpoints self' = {[e]}
    /\ _idle_endpoints self' = _idle_endpoints self ∖ {[e]}.
Proof.
  intros Hempty Hidle. cbn zeta. unfold _AdjustAperture.
  destruct (MonoClock.Sample (_time self) now) as [clock ts].
  destruct (Ema.Update (_ema self) ts _) as [ema avg]. cbn zeta.
  set (self1 := set_load _ ema clock self).
  change (_active_endpoints self1) with (_active_endpoints self).
  assert (Hsize : size (_active_endpoints self) = 0).
  { rewrite Hempty. apply size_empty. }
  unfold aperture_load.
  change (_active_endpoints self1) with (_active_endpoints self).
  destruct (decide (size (_active_endpoints self) = 0)) as [_ | Hn];
    [| contradiction].
  assert (Hge : float_ge (_max_load self1) (_max_load self1) = true).
  { apply float_ge_true. apply Rge_refl. }
  rewrite Hge.
  assert (Hany : any (elements (_idle_endpoints self1)) = true).
  { apply any_elements. exact Hidle. }
  rewrite Hany. cbn [andb].
  destruct (TryExpandAperture_cases pick self1) as [[He _] | (e & He & Heq)];
    [contradiction |].
  exists e. rewrite Heq. simpl. rewrite Hempty.
  split; [exact He |]. split; [set_solver | reflexivity].
Qed.

(** X12.  The endpoint that a jitter cycle brings into the aperture is not
    the one that the cycle takes out: with an idle endpoint at the start,
    the cycle ends, whatever comes of the wait, with an endpoint that was
    idle now active and not idle. *)
Theorem Jitter_keeps_new_endpoint (pick : nat) (outcome : WaitOutcome)
    (delay : Z) self :
  _idle_endpoints self ≠ ∅ ->
  let self' := fst (_Jitter pick outcome delay self) in
  exists e,
    e ∈ _idle_endpoints self
    /\ e ∈ _active_endpoints self'
    /\ e ∉ _idle_endpoints self'.
Proof.
  intros Hidle. cbn zeta. unfold _Jitter, Jitter_expand.
  destruct (TryExpandAperture_cases pick self) as [[He _] | (e & He & Heq)];
    [contradiction |].
  exists e. split; [exact He |]. rewrite Heq. cbn iota beta.
  set (self1 := set_pending _ _).
  assert (Ha : e ∈ _active_endpoints self1) by (simpl; set_solver).
  assert (Hi : e ∉ _idle_endpoints self1) by (simpl; set_solver).
  assert (Hp : e ∈ _pending_endpoints self1) by (simpl; set_solver).
  destruct outcome; simpl; try (split; assumption).
  destruct (ContractAperture_cases self1)
    as [Hsame | (e2 & He2 & _ & _ & Hc)]; rewrite ?Hsame, ?Hc;
    [split; assumption |].
  assert (Hne : e ≠ e2) by (intros ->; exact (He2 Hp)).
  simpl. simpl in Ha, Hi. split; set_solver.
Qed.

Lemma step_pending_waiting (ev : Event Endpoint) (s s' : System Endpoint) :
  step ev s = Some s' ->
  wait_returns ev ->
  _pending_endpoints (sink s) = waiting_endpoint s ->
  _pending_endpoints (sink s') = waiting_endpoint s'.
Proof.
  intros Hstep Hev Hinv. unfold waiting_endpoint in *.
  destruct ev; simpl in Hstep.
  - injection Hstep as <-. unfold with_sink. cbn [sink waiting].
    rewrite <- Hinv. apply (AddSink_same_load e (sink s)).
  - injection Hstep as <-. unfold with_sink. cbn [sink waiting].
    rewrite <- Hinv. apply (RemoveSink_same_load e pick (sink s)).
  - injection Hstep as <-. unfold with_sink. cbn [sink waiting].
    rewrite <- Hinv. apply (OnNodeDown_same_load node pick (sink s)).
  - injection Hstep as <-. unfold with_sink. cbn [sink waiting].
    rewrite <- Hinv. apply (AdjustAperture_sets 1 now pick (sink s)).
  - injection Hstep as <-. unfold with_sink. cbn [sink waiting].
    rewrite <- Hinv. apply (AdjustAperture_sets (-1) now pick (sink s)).
  - injection Hstep as <-. exact Hinv.
  - destruct (waiting s); [discriminate |]. unfold Jitter_expand in Hstep.
    destruct (TryExpandAperture_cases pick (sink s))
      as [[_ Heq] | (e & _ & Heq)]; rewrite Heq in Hstep;
      injection Hstep as <-; simpl; [exact Hinv |].
    rewrite Hinv. set_solver.
  - destruct (waiting s) as [e |]; [| discriminate].
    injection Hstep as <-. cbn [sink waiting].
    unfold Jitter_finally, _ScheduleNextJitter, emit.
    cbn [fst _pending_endpoints].
    destruct outcome; simpl; [| | contradiction].
    + destruct (ContractAperture_same_load (sink s))
        as (_ & _ & _ & _ & _ & _ & Hp).
      rewrite Hp, Hinv. set_solver.
    + rewrite Hinv. set_solver.
Qed.

(** X13.  As long as no [ar.wait()] raises, the pending set is the endpoint
    of the cycle that waits, and is empty between cycles, over every
    interleaving of calls. *)
Theorem pending_is_waiting_endpoint (evs : list (Event Endpoint)) :
  forall s s' : System Endpoint,
    run evs s = Some s' ->
    Forall wait_returns evs ->
    _pending_endpoints (sink s) = waiting_endpoint s ->
    _pending_endpoints (sink s') = waiting_endpoint s'.
Proof.
  induction evs as [| ev rest IH]; intros s s' Hrun Hret Hinv.
  - injection Hrun as <-. exact Hinv.
  - cbn [run] in Hrun. apply Forall_cons in Hret as [Hev Hrest].
    destruct (step ev s) as [s1 |] eqn:Hstep; [| discriminate].
    apply (IH s1 s' Hrun Hrest).
    apply (step_pending_waiting ev s s1 Hstep Hev Hinv).
Qed.

End MembershipLaws.

(** ** ApertureBalancerSink: the gauges and the timer *)

Section OutputLaws.

Context {Endpoint : Type} `{Countable Endpoint} {base : HeapBalancerSink Endpoint}.

Implicit Types (self : ApertureBalancerSink Endpoint) (e : Endpoint).

#[local] Set Warnings "-clear-no-such-hyp".

(** [other x]: [x] is not written to a size gauge. *)
Lemma gauges_app (out extra : list (Effect Endpoint)) :
  Forall (fun x => match x with
                   | varz_active _ | varz_idle _ => False
                   | _ => True
                   end) extra ->
  gauge_active (out ++ extra) = gauge_active out
  /\ gauge_idle (out ++ extra) = gauge_idle out.
Proof.
  intros Hother. unfold gauge_active, gauge_idle. rewrite !omap_app.
  assert (Hnil : omap (λ x : Effect Endpoint,
                         match x with varz_active n => Some n | _ => None end)
                   extra = []
                 /\ omap (λ x : Effect Endpoint,
                            match x with varz_idle n => Some n | _ => None end)
                      extra = []).
  { induction Hother as [| x l Hx _ [IH1 IH2]]; [split; reflexivity |].
    destruct x; try contradiction; (split; [exact IH1 | exact IH2]). }
  destruct Hnil as [-> ->]. rewrite !app_nil_r. split; reflexivity.
Qed.

Lemma UpdateSizeVarz_current self : size_gauges_current (_UpdateSizeVarz self).
Proof.
  unfold size_gauges_current, gauge_active, gauge_idle, _UpdateSizeVarz, emit.
  cbn [_out _active_endpoints _idle_endpoints].
  rewrite <- !app_assoc, !omap_app. simpl.
  rewrite !last_snoc. split; reflexivity.
Qed.

(** A sink with the same two sets, and nothing more written to the size
    gauges, has current gauges if the sink before had. *)
Lemma current_frame self self' (extra : list (Effect Endpoint)) :
  _active_endpoints self' = _active_endpoints self ->
  _idle_endpoints self' = _idle_endpoints self ->
  _out self' = _out self ++ extra ->
  Forall (fun x => match x with
                   | varz_active _ | varz_idle _ => False
                   | _ => True
                   end) extra ->
  size_gauges_current self -> size_gauges_current self'.
Proof.
  intros Ha Hi Hout Hother [Hca Hci]. unfold size_gauges_current.
  destruct (gauges_app (_out self) extra Hother) as [Hga Hgi].
  rewrite Hout, Hga, Hgi, Ha, Hi. split; assumption.
Qed.

Lemma TryExpandAperture_current (pick : nat) self :
  size_gauges_current (fst (_TryExpandAperture pick self)).
Proof.
  destruct (TryExpandAperture_cases pick self) as [[_ Heq] | (e & _ & Heq)];
    rewrite Heq; apply UpdateSizeVarz_current.
Qed.

Lemma ContractAperture_current self :
  size_gauges_current self -> size_gauges_current (_ContractAperture self).
Proof.
  intros Hc.
  destruct (ContractAperture_cases self) as [Heq | (e & _ & _ & _ & Heq)];
    rewrite Heq; [exact Hc | apply UpdateSizeVarz_current].
Qed.

Lemma AdjustAperture_current (amount : Z) (now : R) (pick : nat) self :
  size_gauges_current self ->
  size_gauges_current (_AdjustAperture amount now pick self).
Proof.
  intros Hc.
  destruct (AdjustAperture_cases amount now pick self)
    as (self2 & pre & (Ha & Hi & _) & Hout & Hpre & Hcases).
  assert (Hc2 : size_gauges_current self2).
  { apply (current_frame self self2 pre Ha Hi Hout); [| exact Hc].
    eapply List.Forall_impl; [| exact Hpre].
    intros x Hx. destruct x; try exact I; discriminate. }
  destruct Hcases as [Heq | [[_ Heq] | Heq]]; rewrite Heq.
  - exact Hc2.
  - apply TryExpandAperture_current.
  - apply ContractAperture_current, Hc2.
Qed.

Lemma step_current (ev : Event Endpoint) (s s' : System Endpoint) :
  step ev s = Some s' ->
  size_gauges_current (sink s) -> size_gauges_current (sink s').
Proof.
  intros Hstep Hc. destruct ev; simpl in Hstep.
  - injection Hstep as <-. unfold with_sink. cbn [sink].
    unfold _AddSink. destruct (decide _); apply UpdateSizeVarz_current.
  - injection Hstep as <-. unfold with_sink. cbn [sink].
    unfold _RemoveSink. cbn zeta. apply UpdateSizeVarz_current.
  - injection Hstep as <-. unfold with_sink. cbn [sink].
    unfold _OnNodeDown. destruct (decide _); [| exact Hc].
    pose proof (TryExpandAperture_current pick (sink s)) as Ht.
    destruct (_TryExpandAperture pick (sink s)) as [self [ar oe]]. exact Ht.
  - injection Hstep as <-. apply AdjustAperture_current, Hc.
  - injection Hstep as <-. apply AdjustAperture_current, Hc.
  - injection Hstep as <-. exact Hc.
  - destruct (waiting s); [discriminate |]. unfold Jitter_expand in Hstep.
    pose proof (TryExpandAperture_current pick (sink s)) as Ht.
    destruct (_TryExpandAperture pick (sink s)) as [self [ar [e |]]];
      injection Hstep as <-; cbn [sink fst] in *.
    + exact Ht.
    + apply (current_frame self _ [timer_schedule delay]);
        try reflexivity; [repeat constructor | exact Ht].
  - destruct (waiting s) as [e |]; [| discriminate].
    injection Hstep as <-. cbn [sink].
    assert (Hr : size_gauges_current (fst (Jitter_resume e outcome (sink s)))).
    { destruct outcome; simpl; [| exact Hc | exact Hc].
      apply (ContractAperture_current _ Hc). }
    apply (current_frame (fst (Jitter_resume e outcome (sink s))) _
             [timer_schedule delay]);
      try reflexivity; [repeat constructor | exact Hr].
Qed.

(** X14.  The [active] and [idle] gauges are current: on a new sink, and
    after every call of every interleaving since, each shows the size of
    its set (a gauge not yet written to standing for 0). *)
Theorem size_gauges_stay_current :
  (forall (sink_properties : SinkProperties) (now : R) (delay : Z),
      size_gauges_current
        (__init__ sink_properties now delay : ApertureBalancerSink Endpoint))
  /\ (forall (evs : list (Event Endpoint)) (s s' : System Endpoint),
         run evs s = Some s' ->
         size_gauges_current (sink s) -> size_gauges_current (sink s')).
Proof.
  split.
  - intros props now delay. unfold __init__.
    destruct (decide _); split; reflexivity.
  - intros evs. induction evs as [| ev rest IH]; intros s s' Hrun Hc.
    + injection Hrun as <-. exact Hc.
    + cbn [run] in Hrun.
      destruct (step ev s) as [s1 |] eqn:Hstep; [| discriminate].
      apply (IH s1 s' Hrun), (step_current ev s s1 Hstep Hc).
Qed.

Lemma timers_app (a b : list (Effect Endpoint)) :
  timers (a ++ b) = timers a + timers b.
Proof. unfold timers. rewrite List.filter_app, length_app. reflexivity. Qed.

Lemma timers_UpdateSizeVarz self :
  timers (_out (_UpdateSizeVarz self)) = timers (_out self).
Proof.
  unfold _UpdateSizeVarz, emit. cbn [_out]. rewrite !timers_app.
  unfold timers at 2 3. simpl. lia.
Qed.

Lemma timers_TryExpandAperture (pick : nat) self :
  timers (_out (fst (_TryExpandAperture pick self))) = timers (_out self).
Proof.
  destruct (TryExpandAperture_cases pick self) as [[_ Heq] | (e & _ & Heq)];
    rewrite Heq; cbn [fst]; rewrite timers_UpdateSizeVarz; [reflexivity |].
  unfold set_heap, emit. cbn [_out]. rewrite timers_app.
  unfold timers at 2. simpl. lia.
Qed.

Lemma timers_ContractAperture self :
  timers (_out (_ContractAperture self)) = timers (_out self).
Proof.
  destruct (ContractAperture_cases self) as [Heq | (e & _ & _ & _ & Heq)];
    rewrite Heq; [reflexivity |].
  rewrite timers_UpdateSizeVarz. unfold emit. cbn [_out].
  rewrite timers_app. unfold timers at 2. simpl. lia.
Qed.

Lemma timers_AdjustAperture (amount : Z) (now : R) (pick : nat) self :
  timers (_out (_AdjustAperture amount now pick self)) = timers (_out self).
Proof.
  destruct (AdjustAperture_cases amount now pick self)
    as (self2 & pre & _ & Hout & Hpre & Hcases).
  assert (H2 : timers (_out self2) = timers (_out self)).
  { rewrite Hout, timers_app.
    assert (Hnil : timers pre = 0).
    { clear Hout. induction Hpre as [| x l Hx _ IH]; [reflexivity |].
      destruct x; try discriminate. exact IH. }
    lia. }
  destruct Hcases as [Heq | [[_ Heq] | Heq]]; rewrite Heq.
  - exact H2.
  - rewrite timers_TryExpandAperture. exact H2.
  - rewrite timers_ContractAperture. exact H2.
Qed.

Lemma timers_RemoveSink e (pick : nat) self :
  timers (_out (_RemoveSink e pick self)) = timers (_out self).
Proof.
  unfold _RemoveSink. cbn zeta. rewrite timers_UpdateSizeVarz.
  set (self0 := set_heap (super_RemoveSink e (_heap self)) self).
  set (self1 := if decide (e ∈ _active_endpoints self0) then _ else self0).
  assert (H1 : timers (_out self1) = timers (_out self)).
  { subst self1. destruct (decide _); [| reflexivity].
    rewrite timers_TryExpandAperture. reflexivity. }
  destruct (decide (e ∈ _idle_endpoints self1)); exact H1.
Qed.

Lemma step_timers (ev : Event Endpoint) (s s' : System Endpoint) :
  step ev s = Some s' ->
  timers (_out (sink s')) + waiting_cycles s'
  = timers (_out (sink s)) + waiting_cycles s + fired [ev].
Proof.
  intros Hstep. unfold waiting_cycles. destruct ev; simpl in Hstep.
  - injection Hstep as <-. unfold with_sink. cbn [sink waiting fired].
    unfold _AddSink. destruct (decide _); rewrite timers_UpdateSizeVarz;
      cbn [_out set_idle set_heap set_active]; lia.
  - injection Hstep as <-. unfold with_sink. cbn [sink waiting fired].
    rewrite timers_RemoveSink. lia.
  - injection Hstep as <-. unfold with_sink. cbn [sink waiting fired].
    unfold _OnNodeDown. destruct (decide _); [| cbn [fst]; lia].
    pose proof (timers_TryExpandAperture pick (sink s)) as Ht.
    destruct (_TryExpandAperture pick (sink s)) as [self [ar oe]].
    cbn [fst] in *. lia.
  - injection Hstep as <-. unfold with_sink, _OnGet. cbn [sink waiting fired].
    rewrite timers_AdjustAperture. lia.
  - injection Hstep as <-. unfold with_sink, _OnPut. cbn [sink waiting fired].
    rewrite timers_AdjustAperture. lia.
  - injection Hstep as <-. unfold with_sink. cbn [sink waiting fired].
    cbn [_out set_heap]. lia.
  - destruct (waiting s); [discriminate |]. unfold Jitter_expand in Hstep.
    pose proof (timers_TryExpandAperture pick (sink s)) as Ht.
    destruct (_TryExpandAperture pick (sink s)) as [self [ar [e |]]];
      injection Hstep as <-; cbn [sink waiting fired fst] in *.
    + cbn [_out set_pending]. lia.
    + unfold Jitter_finally, _ScheduleNextJitter, emit. cbn [fst _out].
      rewrite timers_app. unfold timers at 2. simpl. lia.
  - destruct (waiting s) as [e |]; [| discriminate].
    injection Hstep as <-. cbn [sink waiting fired].
    unfold Jitter_finally, _ScheduleNextJitter, emit. cbn [fst _out].
    rewrite timers_app. unfold timers at 2. simpl.
    assert (Hr : timers (_out (fst (Jitter_resume e outcome (sink s))))
                 = timers (_out (sink s))).
    { destruct outcome; cbn [Jitter_resume fst _out set_pending];
        [apply timers_ContractAperture | reflexivity | reflexivity]. }
    lia.
Qed.

(** The bounds of the jitter delay are those of the options, for good. *)
Lemma TryExpandAperture_band (pick : nat) self :
  _jitter_min (fst (_TryExpandAperture pick self)) = _jitter_min self
  /\ _jitter_max (fst (_TryExpandAperture pick self)) = _jitter_max self.
Proof.
  destruct (TryExpandAperture_cases pick self) as [[_ Heq] | (e & _ & Heq)];
    rewrite Heq; split; reflexivity.
Qed.

Lemma ContractAperture_band self :
  _jitter_min (_ContractAperture self) = _jitter_min self
  /\ _jitter_max (_ContractAperture self) = _jitter_max self.
Proof.
  destruct (ContractAperture_cases self) as [Heq | (e & _ & _ & _ & Heq)];
    rewrite Heq; split; reflexivity.
Qed.

Lemma AdjustAperture_band (amount : Z) (now : R) (pick : nat) self :
  _jitter_min (_AdjustAperture amount now pick self) = _jitter_min self
  /\ _jitter_max (_AdjustAperture amount now pick self) = _jitter_max self.
Proof.
  unfold _AdjustAperture.
  destruct (MonoClock.Sample (_time self) now) as [clock ts].
  destruct (Ema.Update (_ema self) ts _) as [ema avg]. cbn zeta.
  set (self1 := set_load _ ema clock self).
  set (self2 := if decide (size (_active_endpoints self1) = 0) then self1 else _).
  assert (H2 : _jitter_min self2 = _jitter_min self
               /\ _jitter_max self2 = _jitter_max self).
  { subst self2. destruct (decide _); split; reflexivity. }
  destruct H2 as [Hmin Hmax].
  destruct (float_ge _ _ && any _).
  - destruct (TryExpandAperture_band pick self2) as [-> ->].
    split; assumption.
  - destruct (float_le _ _ && bool_decide _); [| split; assumption].
    destruct (ContractAperture_band self2) as [-> ->]. split; assumption.
Qed.

Lemma step_band (ev : Event Endpoint) (s s' : System Endpoint) :
  step ev s = Some s' ->
  _jitter_min (sink s') = _jitter_min (sink s)
  /\ _jitter_max (sink s') = _jitter_max (sink s).
Proof.
  intros Hstep. destruct ev; simpl in Hstep.
  - injection Hstep as <-. unfold with_sink. cbn [sink].
    unfold _AddSink. destruct (decide _); split; reflexivity.
  - injection Hstep as <-. unfold with_sink. cbn [sink].
    unfold _RemoveSink. cbn zeta.
    set (self0 := set_heap (super_RemoveSink e (_heap (sink s))) (sink s)).
    set (self1 := if decide (e ∈ _active_endpoints self0) then _ else self0).
    assert (H1 : _jitter_min self1 = _jitter_min (sink s)
                 /\ _jitter_max self1 = _jitter_max (sink s)).
    { subst self1. destruct (decide _); [| split; reflexivity].
      apply (TryExpandAperture_band pick
               (set_active (_active_endpoints self0 ∖ {[e]}) self0)). }
    destruct (decide (e ∈ _idle_endpoints self1)); exact H1.
  - injection Hstep as <-. unfold with_sink. cbn [sink].
    unfold _OnNodeDown. destruct (decide _); [| split; reflexivity].
    pose proof (TryExpandAperture_band pick (sink s)) as Hb.
    destruct (_TryExpandAperture pick (sink s)) as [self [ar oe]]. exact Hb.
  - injection Hstep as <-. apply AdjustAperture_band.
  - injection Hstep as <-. apply AdjustAperture_band.
  - injection Hstep as <-. split; reflexivity.
  - destruct (waiting s); [discriminate |]. unfold Jitter_expand in Hstep.
    pose proof (TryExpandAperture_band pick (sink s)) as Hb.
    destruct (_TryExpandAperture pick (sink s)) as [self [ar [e |]]];
      injection Hstep as <-; exact Hb.
  - destruct (waiting s) as [e |]; [| discriminate].
    injection Hstep as <-. cbn [sink].
    unfold Jitter_finally, _ScheduleNextJitter, emit.
    cbn [fst _jitter_min _jitter_max].
    destruct outcome; cbn [Jitter_resume fst set_pending _jitter_min _jitter_max];
      try (split; reflexivity).
    apply ContractAperture_band.
Qed.

(** X15.  On a sink whose options have [jitter_min_sec ≤ jitter_max_sec]
    (otherwise [random.randint] raises in [_ScheduleNextJitter]), the jitter
    timer is scheduled once by [__init__] when [jitter_min_sec] is above 0
    and not at all otherwise; afterwards, over every interleaving of calls,
    the two bounds stay as they are and each firing of the timer is answered
    by one new schedule, made when its cycle ends: the schedules made, plus
    the cycle that waits if one does, are the schedules before plus the
    firings.  No other call schedules. *)
Theorem jitter_rescheduled_once_per_firing :
  (forall (sink_properties : SinkProperties) (now : R) (delay : Z),
      (jitter_min_sec sink_properties <= jitter_max_sec sink_properties)%Z ->
      let self : ApertureBalancerSink Endpoint :=
        __init__ sink_properties now delay in
      timers (_out self)
      = (if decide (0 < jitter_min_sec sink_properties)%Z then 1 else 0)
      /\ (_jitter_min self <= _jitter_max self)%Z)
  /\ (forall (evs : list (Event Endpoint)) (s s' : System Endpoint),
         (_jitter_min (sink s) <= _jitter_max (sink s))%Z ->
         run evs s = Some s' ->
         timers (_out (sink s')) + waiting_cycles s'
         = timers (_out (sink s)) + waiting_cycles s + fired evs
         /\ (_jitter_min (sink s') <= _jitter_max (sink s'))%Z).
Proof.
  split.
  - intros props now delay Hband. cbn zeta. unfold __init__.
    cbn [_jitter_min]. destruct (decide _); split; try reflexivity; exact Hband.
  - intros evs. induction evs as [| ev rest IH]; intros s s' Hband Hrun.
    + injection Hrun as <-. cbn [fired]. split; [lia | exact Hband].
    + cbn [run] in Hrun.
      destruct (step ev s) as [s1 |] eqn:Hstep; [| discriminate].
      destruct (step_band ev s s1 Hstep) as [Hmin Hmax].
      assert (Hband1 : (_jitter_min (sink s1) <= _jitter_max (sink s1))%Z)
        by (rewrite Hmin, Hmax; exact Hband).
      destruct (IH s1 s' Hband1 Hrun) as [Hcount Hband'].
      split; [| exact Hband'].
      rewrite Hcount, (step_timers ev s s1 Hstep).
      destruct ev; cbn [fired]; lia.
Qed.

End OutputLaws.

(** ** ApertureBalancerSink: the times of the load average *)

Section LoadAverageLaws.

Context {Endpoint : Type} `{Countable Endpoint} {base : HeapBalancerSink Endpoint}.

Implicit Types (self : ApertureBalancerSink Endpoint) (e : Endpoint).

Local Open Scope R_scope.






End LoadAverageLaws.

(** ** The further properties at the scenarios *)

Section FurtherScenarios.

Local Open Scope string_scope.

#[local] Set Warnings "-clear-no-such-hyp".

Lemma start_disjoint :
  _active_endpoints Scenario.start ∩ _idle_endpoints Scenario.start = ∅.
Proof. vm_compute. reflexivity. Qed.

Lemma start_idle_not_empty : _idle_endpoints Scenario.start ≠ ∅.
Proof. apply (bool_decide_unpack _). vm_compute. exact I. Qed.

Lemma TryExpandAperture_moves_one_idle_witness :
  exists pick', snd (snd (_TryExpandAperture pick' Scenario.start)) = Some "c".
Proof.
  apply (proj2 (proj2 (TryExpandAperture_moves_one_idle 0 Scenario.start))).
  apply (bool_decide_unpack _). vm_compute. exact I.
Defined.

Lemma ContractAperture_first_not_pending_witness :
  _active_endpoints (_ContractAperture MoreScenarios.three_active)
  = _active_endpoints MoreScenarios.three_active ∖ {["a"]}.
Proof.
  apply (proj2 (proj2 (ContractAperture_first_not_pending
                         MoreScenarios.three_active)) [] "a" ["b"; "c"]).
  - vm_compute. reflexivity.
  - vm_compute. reflexivity.
  - constructor.
  - apply (bool_decide_unpack _). vm_compute. exact I.
Defined.

Lemma aperture_floor_kept_witness :
  (_min_size (sink MoreScenarios.waiting_for_c)
   <= Z.of_nat (size (_active_endpoints (sink MoreScenarios.waiting_for_c))))%Z.
Proof.
  apply (aperture_floor_kept (EvJitterFire 0 180) Scenario.start_system
           MoreScenarios.waiting_for_c).
  - vm_compute. reflexivity.
  - intros e pick. discriminate.
  - vm_compute. discriminate.
Defined.

Lemma active_idle_disjoint_witness :
  _active_endpoints (_AddSink "d" Scenario.start)
  ∩ _idle_endpoints (_AddSink "d" Scenario.start) = ∅.
Proof.
  apply (active_idle_disjoint [EvAddSink "d"] Scenario.start_system
           (with_sink (_AddSink "d" Scenario.start) Scenario.start_system)).
  - reflexivity.
  - split; [| exact I]. apply (bool_decide_unpack _). vm_compute. exact I.
  - exact start_disjoint.
Defined.

Lemma RemoveSink_forgets_and_backfills_witness :
  "a" ∉ _active_endpoints (_RemoveSink "a" 0 Scenario.start).
Proof.
  exact (proj1 (RemoveSink_forgets_and_backfills "a" 0 Scenario.start
                  start_disjoint)).
Defined.

Lemma AdjustAperture_keeps_known_endpoints_witness :
  _active_endpoints (_AdjustAperture 1 1 0 Scenario.start)
  ∪ _idle_endpoints (_AdjustAperture 1 1 0 Scenario.start)
  = _active_endpoints Scenario.start ∪ _idle_endpoints Scenario.start.
Proof.
  apply (AdjustAperture_keeps_known_endpoints 1 1 0 Scenario.start).
  intros x Hx.
  replace (heap_endpoints Scenario.start) with ["a"; "b"] in Hx
    by (vm_compute; reflexivity).
  replace (_active_endpoints Scenario.start) with ({["a"; "b"]} : gset string)
    by (vm_compute; reflexivity).
  set_solver.
Defined.

Lemma AdjustAperture_refills_empty_aperture_witness :
  exists e,
    e ∈ _idle_endpoints MoreScenarios.all_idle
    /\ _active_endpoints (_AdjustAperture 1 1 0 MoreScenarios.all_idle) = {[e]}
    /\ _idle_endpoints (_AdjustAperture 1 1 0 MoreScenarios.all_idle)
       = _idle_endpoints MoreScenarios.all_idle ∖ {[e]}.
Proof.
  apply (AdjustAperture_refills_empty_aperture 1 1 0 MoreScenarios.all_idle).
  - vm_compute. reflexivity.
  - apply (bool_decide_unpack _). vm_compute. exact I.
Defined.

Lemma Jitter_keeps_new_endpoint_witness :
  exists e,
    e ∈ _idle_endpoints Scenario.start
    /\ e ∈ _active_endpoints (fst (_Jitter 0 WaitDone 200 Scenario.start))
    /\ e ∉ _idle_endpoints (fst (_Jitter 0 WaitDone 200 Scenario.start)).
Proof.
  apply (Jitter_keeps_new_endpoint 0 WaitDone 200 Scenario.start).
  exact start_idle_not_empty.
Defined.

Lemma pending_is_waiting_endpoint_witness :
  _pending_endpoints (sink MoreScenarios.after_cycle)
  = waiting_endpoint MoreScenarios.after_cycle.
Proof.
  apply (pending_is_waiting_endpoint
           [EvJitterFire 0 180; EvJitterWake WaitDone 200]
           Scenario.start_system MoreScenarios.after_cycle).
  - vm_compute. reflexivity.
  - repeat constructor.
  - vm_compute. reflexivity.
Defined.

Lemma size_gauges_stay_current_witness :
  size_gauges_current (sink MoreScenarios.after_cycle).
Proof.
  apply (proj2 size_gauges_stay_current
           [EvJitterFire 0 180; EvJitterWake WaitDone 200]
           Scenario.start_system MoreScenarios.after_cycle).
  - vm_compute. reflexivity.
  - vm_compute. split; reflexivity.
Defined.

Lemma jitter_rescheduled_once_per_firing_witness :
  timers (_out (sink MoreScenarios.after_cycle))
  + waiting_cycles MoreScenarios.after_cycle
  = timers (_out Scenario.start) + 0 + 1.
Proof.
  apply (proj2 jitter_rescheduled_once_per_firing
           [EvJitterFire 0 180; EvJitterWake WaitDone 200]
           Scenario.start_system MoreScenarios.after_cycle).
  - vm_compute. discriminate.
  - vm_compute. reflexivity.
Defined.


End FurtherScenarios.
